(** * Incremental merge of wide sales snapshots: a model of [src/preprocessor.py]

    The Python class [DataProcessor] reads wide CSV snapshots (one row per
    Client/Warehouse/Product, one column per date), reshapes them into long
    rows and merges them into one persisted parquet table.  This file embeds
    the three methods [prepare_raw_csv], [merge_new_data_with_preprocessed_data]
    and [process_files] and proves the properties the specification states
    about them.

    Conventions of the embedding:
    - every polars column is nullable, so every cell is an [option];
    - identifier cells are strings (the source casts them to [pl.String]);
      an observation cell is null, an integer, a float or a text, as
      [pl.read_csv] found it, and becomes a binary64 float by the cast of
      line 109;
    - what polars' strict casts of a string to [pl.Date] and to
      [pl.Float64] read is not fixed here: the two casts are the variables
      [polars_date] and [polars_float] of the development, and a theorem
      that needs the date cast to read a column name as [strptime] does
      says so in a hypothesis ([reads_like_strptime]);
    - the persisted table has the columns [prepare_raw_csv] produces, so
      that [pl.concat(..., how='vertical')] finds equal schemas;
    - column names are ASCII text;
    - an exception is a value of [exn]; the world (files, standard output)
      is threaded explicitly, so that what an aborted call leaves behind is
      a statement about the model and not a convention. *)

From Stdlib Require Import List String Ascii Bool Arith Lia ZArith.
From Stdlib Require Import Sorting.Sorted Sorting.Permutation.
From Stdlib Require Import Floats.SpecFloat.
Import ListNotations.

#[local] Set Warnings "-abstract-large-number".

Local Open Scope string_scope.
Local Open Scope list_scope.
Local Open Scope nat_scope.

(** ** Calendar dates *)

(** [datetime.date]: a proleptic Gregorian year, month, day. *)
Record date : Set := mkDate { year : nat; month : nat; day : nat }.

Definition date_eqb (a b : date) : bool :=
  (year a =? year b) && (month a =? month b) && (day a =? day b).

(** Chronological comparison: by year, then month, then day. *)
Definition date_compare (a b : date) : comparison :=
  match Nat.compare (year a) (year b) with
  | Eq => match Nat.compare (month a) (month b) with
          | Eq => Nat.compare (day a) (day b)
          | c => c
          end
  | c => c
  end.

Definition is_leap (y : nat) : bool :=
  ((y mod 4 =? 0) && negb (y mod 100 =? 0)) || (y mod 400 =? 0).

Definition days_in_month (y m : nat) : nat :=
  match m with
  | 1 | 3 | 5 | 7 | 8 | 10 | 12 => 31
  | 4 | 6 | 9 | 11 => 30
  | 2 => if is_leap y then 29 else 28
  | _ => 0
  end.

(** The constructor [datetime.date(y, m, d)]: it raises [ValueError] unless
    [1 <= y <= 9999], [1 <= m <= 12] and [1 <= d <= days_in_month y m]. *)
Definition make_date (y m d : nat) : option date :=
  if (1 <=? y) && (y <=? 9999) && (1 <=? m) && (m <=? 12)
     && (1 <=? d) && (d <=? days_in_month y m)
  then Some (mkDate y m d) else None.

(** ** [strptime(s, '%Y-%m-%d')]

    CPython compiles the format to the regular expression
    [(?P<Y>\d\d\d\d)-(?P<m>1[0-2]|0[1-9]|[1-9])-(?P<d>3[0-1]|[1-2]\d|0[1-9]|[1-9]| [1-9])],
    matches it at the start of the string, requires that nothing remains
    after the match, and builds the date from the three groups.  On ASCII
    text [\d] is a character from 0 to 9. *)

Definition digit (c : ascii) : option nat :=
  let n := nat_of_ascii c in
  if (48 <=? n) && (n <=? 57) then Some (n - 48) else None.

Definition is_dash (c : ascii) : bool := Ascii.eqb c "-"%char.
Definition is_space (c : ascii) : bool := Ascii.eqb c " "%char.

(** Group [Y]: exactly four digits. *)
Definition scan_year (s : string) : option (nat * string) :=
  match s with
  | String a (String b (String c (String d rest))) =>
      match digit a, digit b, digit c, digit d with
      | Some a, Some b, Some c, Some d =>
          Some (1000 * a + 100 * b + 10 * c + d, rest)
      | _, _, _, _ => None
      end
  | _ => None
  end.

(** Group [m] followed by the literal dash: the two-character alternatives
    are tried first; when one of them matches and no dash follows, the
    one-character alternative cannot be followed by a dash either. *)
Definition scan_month (s : string) : option (nat * string) :=
  match s with
  | String a (String b rest) =>
      match digit a, digit b with
      | Some 1, Some y =>
          if y <=? 2 then
            match rest with
            | String c rest' => if is_dash c then Some (10 + y, rest') else None
            | EmptyString => None
            end
          else None
      | Some 0, Some y =>
          if 1 <=? y then
            match rest with
            | String c rest' => if is_dash c then Some (y, rest') else None
            | EmptyString => None
            end
          else None
      | Some x, None =>
          if (1 <=? x) && is_dash b then Some (x, rest) else None
      | _, _ => None
      end
  | _ => None
  end.

(** Group [d], the last of the expression: the first alternative that
    matches wins, whatever follows. *)
Definition scan_day (s : string) : option (nat * string) :=
  match s with
  | EmptyString => None
  | String a rest =>
      let two :=
        match rest with
        | String b rest' =>
            match digit a, digit b with
            | Some 3, Some y => if y <=? 1 then Some (30 + y, rest') else None
            | Some 1, Some y => Some (10 + y, rest')
            | Some 2, Some y => Some (20 + y, rest')
            | Some 0, Some y => if 1 <=? y then Some (y, rest') else None
            | _, _ => None
            end
        | EmptyString => None
        end in
      match two with
      | Some r => Some r
      | None =>
          match digit a with
          | Some x => if 1 <=? x then Some (x, rest) else None
          | None =>
              if is_space a then
                match rest with
                | String b rest' =>
                    match digit b with
                    | Some y => if 1 <=? y then Some (y, rest') else None
                    | None => None
                    end
                | EmptyString => None
                end
              else None
          end
      end
  end.

Definition strptime (s : string) : option date :=
  match scan_year s with
  | Some (y, String c s1) =>
      if is_dash c then
        match scan_month s1 with
        | Some (m, s2) =>
            match scan_day s2 with
            | Some (d, EmptyString) => make_date y m d
            | _ => None
            end
        | None => None
        end
      else None
  | _ => None
  end.

(** ** Cells, frames and long rows *)

(** A [pl.Float64] value. *)
Definition float64 : Set := spec_float.

(** An observation cell of a snapshot, as [pl.read_csv] returns it. *)
Inductive value : Set :=
| Null
| Int (z : Z)
| Float (f : float64)
| Text (s : string).

(** A wide snapshot as [pl.read_csv] returns it: the header and the rows.
    A row holds its three identifier cells and, for every other column
    name, the observation cell under that name. *)
Module Wide.
Record row : Type := mkRow {
    Client : option string;
    Warehouse : option string;
    Product : option string;
    cell : string -> value
}.
Record frame : Type := mkFrame {
    columns : list string;
    rows : list row
}.
End Wide.

(** A long row, in the layout [['ds','y','unique_id','Client','Warehouse','Product']].
    [D] is the type of the [ds] column: [string] as [unpivot] produces it,
    [date] after the cast to [pl.Date].  [Y] is the type of the [y]
    column: [value] as [unpivot] produces it, a nullable [float64] after
    the cast to [pl.Float64] and in the persisted table. *)
Module Long.
Record row (D Y : Type) : Type := mkRow {
    ds : option D;
    y : Y;
    unique_id : option string;
    Client : option string;
    Warehouse : option string;
    Product : option string
}.
Arguments mkRow {D Y}.
Arguments ds {D Y}.
Arguments y {D Y}.
Arguments unique_id {D Y}.
Arguments Client {D Y}.
Arguments Warehouse {D Y}.
Arguments Product {D Y}.
(** A record of the persisted table. *)
Definition record : Type := row date (option float64).
Definition frame : Type := list record.
End Long.

(** ** Exceptions *)

Inductive exn : Set :=
| FileNotFoundError (path : string)
| ColumnNotFoundError (column : string)
| ValueError (data : string)          (* raised by [strptime] *)
| InvalidOperationError (value : string). (* raised by a strict polars cast *)

Inductive result (A : Type) : Type :=
| Ok (a : A)
| Raise (e : exn).
Arguments Ok {A}.
Arguments Raise {A}.

Definition result_bind {A B} (r : result A) (k : A -> result B) : result B :=
  match r with
  | Ok a => k a
  | Raise e => Raise e
  end.

(** A list comprehension whose body can raise: elements are evaluated from
    left to right and the first exception ends the evaluation. *)
Fixpoint traverse {A B} (f : A -> result B) (l : list A) : result (list B) :=
  match l with
  | [] => Ok []
  | a :: l' =>
      result_bind (f a) (fun b =>
      result_bind (traverse f l') (fun bs => Ok (b :: bs)))
  end.

(** ** Column expressions *)

Definition original_cat_cols : list string := ["Client"; "Warehouse"; "Product"].

(** The [index] argument of [unpivot]. *)
Definition unpivot_index : list string :=
  ["unique_id"; "Product"; "Warehouse"; "Client"].

(** Python's [col in names] on strings. *)
Definition str_in (col : string) (names : list string) : bool :=
  existsb (String.eqb col) names.

(** [pl.col(name)] on a frame: the column has to exist. *)
Fixpoint require_columns (names : list string) (df : Wide.frame) : result unit :=
  match names with
  | [] => Ok tt
  | c :: names' =>
      if str_in c (Wide.columns df) then require_columns names' df
      else Raise (ColumnNotFoundError c)
  end.

(** [pl.concat_str] with its default [ignore_nulls=False]: a null part
    makes the result null. *)
Fixpoint concat_str (parts : list (option string)) : option string :=
  match parts with
  | [] => Some ""
  | None :: _ => None
  | Some s :: parts' =>
      match concat_str parts' with
      | Some t => Some (s ++ t)%string
      | None => None
      end
  end.

Definition unique_id_of (r : Wide.row) : option string :=
  concat_str [Wide.Client r; Some "/"; Wide.Warehouse r; Some "/"; Wide.Product r].

(** The columns [unpivot] takes as value columns: all those outside its
    index. *)
Definition value_columns (df : Wide.frame) : list string :=
  filter (fun col => negb (str_in col unpivot_index)) (Wide.columns df).

(** The long row of input row [r] under value column [col], with [v] in
    its [ds] field. *)
Definition long_row {D} (r : Wide.row) (col : string) (v : option D)
    : Long.row D value :=
  Long.mkRow v (Wide.cell r col) (unique_id_of r)
             (Wide.Client r) (Wide.Warehouse r) (Wide.Product r).

(** [unpivot(index=..., variable_name='ds', value_name='y')]: the output
    lists, for each value column in header order, one row per input row,
    with the column's name in [ds]. *)
Definition unpivot (df : Wide.frame) : list (Long.row string value) :=
  flat_map (fun col => map (fun r => long_row r col (Some col)) (Wide.rows df))
           (value_columns df).

Definition with_ds {D E Y} (r : Long.row D Y) (v : option E) : Long.row E Y :=
  Long.mkRow v (Long.y r) (Long.unique_id r)
             (Long.Client r) (Long.Warehouse r) (Long.Product r).

Definition with_y {D Y Y'} (r : Long.row D Y) (v : Y') : Long.row D Y' :=
  Long.mkRow (Long.ds r) v (Long.unique_id r)
             (Long.Client r) (Long.Warehouse r) (Long.Product r).

(** An Int64 as a Float64: the nearest float, ties to even. *)
Definition float_of_int (z : Z) : float64 := binary_normalize 53 1024 z 0 false.

(** ** Sorting by [['unique_id', 'ds']] *)

(** Nulls come first (polars' default [nulls_last=False]). *)
Definition option_compare {A} (cmp : A -> A -> comparison)
    (a b : option A) : comparison :=
  match a, b with
  | None, None => Eq
  | None, Some _ => Lt
  | Some _, None => Gt
  | Some x, Some y => cmp x y
  end.

Definition key_compare {Y} (a b : Long.row date Y) : comparison :=
  match option_compare String.compare (Long.unique_id a) (Long.unique_id b) with
  | Eq => option_compare date_compare (Long.ds a) (Long.ds b)
  | c => c
  end.

Definition key_leb {Y} (a b : Long.row date Y) : bool :=
  match key_compare a b with
  | Gt => false
  | _ => true
  end.

(** [a] may stand before [b] in a table sorted by (unique_id, ds). *)
Definition key_le {Y} (a b : Long.row date Y) : Prop := key_leb a b = true.

Fixpoint insert_row {Y} (x : Long.row date Y) (l : list (Long.row date Y))
    : list (Long.row date Y) :=
  match l with
  | [] => [x]
  | h :: t => if key_leb x h then x :: l else h :: insert_row x t
  end.

(** [df.sort(by=['unique_id', 'ds'])].  Polars leaves the relative order of
    rows with equal keys open; this sort keeps it, and no theorem below
    depends on that choice. *)
Fixpoint sort {Y} (l : list (Long.row date Y)) : list (Long.row date Y) :=
  match l with
  | [] => []
  | x :: l' => insert_row x (sort l')
  end.

(** ** The world: files and standard output *)

(** What the methods read and write: the listing of [self.file_path], the
    CSV files under [data/raw/], the parquet file at
    [self.preprocessed_data_file_path] (absent until bootstrapped), the
    number of [write_parquet] calls made so far, and the lines printed. *)
Record world : Type := mkWorld {
  listdir : list string;
  raw : string -> option Wide.frame;
  parquet : option Long.frame;
  writes : nat;
  stdout : list string
}.

(** A computation that reads and changes the world and can raise. *)
Definition M (A : Type) : Type := world -> result A * world.

Definition ret {A} (a : A) : M A := fun w => (Ok a, w).

Definition bind {A B} (m : M A) (k : A -> M B) : M B :=
  fun w =>
    match m w with
    | (Ok a, w') => k a w'
    | (Raise e, w') => (Raise e, w')
    end.

Notation "x <- m ;; k" := (bind m (fun x => k))
  (at level 61, m at next level, right associativity).
Notation "m ;;; k" := (bind m (fun _ => k))
  (at level 61, right associativity).

Definition lift {A} (r : result A) : M A := fun w => (r, w).

Definition read_csv (name : string) : M Wide.frame :=
  fun w =>
    match raw w name with
    | Some df => (Ok df, w)
    | None => (Raise (FileNotFoundError ("data/raw/" ++ name)%string), w)
    end.

(** [self.preprocessed_data_file_path], with the processor's [file_name]
    left open: one processor has one such file. *)
Definition preprocessed_data_file_path : string :=
  "data/preprocessed/{file_name}.parquet".

Definition read_parquet : M Long.frame :=
  fun w =>
    match parquet w with
    | Some df => (Ok df, w)
    | None => (Raise (FileNotFoundError preprocessed_data_file_path), w)
    end.

Definition write_parquet (df : Long.frame) : M unit :=
  fun w =>
    (Ok tt, mkWorld (listdir w) (raw w) (Some df) (S (writes w)) (stdout w)).

Definition print (line : string) : M unit :=
  fun w =>
    (Ok tt, mkWorld (listdir w) (raw w) (parquet w) (writes w)
                    (stdout w ++ [line])).

Definition os_listdir : M (list string) := fun w => (Ok (listdir w), w).

(** ** The parts of the merge that are pure *)

Definition option_date_eqb (a b : option date) : bool :=
  match a, b with
  | None, None => true
  | Some x, Some y => date_eqb x y
  | _, _ => false
  end.

(** [Series.unique()]: each value once. *)
Fixpoint unique (l : list (option date)) : list (option date) :=
  match l with
  | [] => []
  | a :: l' =>
      if existsb (option_date_eqb a) l' then unique l' else a :: unique l'
  end.

(** [dt.datetime.strptime(date, '%Y-%m-%d').date()] *)
Definition parse_column (col : string) : result date :=
  match strptime col with
  | Some d => Ok d
  | None => Raise (ValueError col)
  end.

(** [pl.col('ds').is_in(dates)]: null on a null [ds], and [filter] drops
    the rows on which its predicate is null. *)
Definition is_in {Y} (dates : list date) (r : Long.row date Y) : bool :=
  match Long.ds r with
  | Some d => existsb (date_eqb d) dates
  | None => false
  end.

Definition all_overlapping_msg : string := "All dates are overlapping".

Definition merged_msg (new_data_file_name : string) : string :=
  ("Data for file " ++ new_data_file_name
   ++ " has been successfully merged with the preprocessed data")%string.

(** Line 92: [[col for col in new_df.columns if col not in original_cat_cols]]. *)
Definition dates_from_new_file (new_df : Wide.frame) : list string :=
  filter (fun col => negb (str_in col original_cat_cols)) (Wide.columns new_df).

(** Line 98: [old_df['ds'].unique().to_list()]. *)
Definition dates_from_old_file (old_df : Long.frame) : list (option date) :=
  unique (map Long.ds old_df).

(** Line 101: [[col for col in ... if col not in dates_from_old_file]]. *)
Definition dates_that_are_not_overlapping
    (old_df : Long.frame) (new_dates : list date) : list date :=
  filter (fun d =>
            negb (existsb (option_date_eqb (Some d)) (dates_from_old_file old_df)))
         new_dates.

(** ** The parts of [process_files] that do not merge *)

Definition startswith (s p : string) : bool := String.prefix p s.

Definition endswith (s p : string) : bool :=
  let n := String.length s in
  let m := String.length p in
  (m <=? n) && String.eqb (String.substring (n - m) m s) p.

(** A [for] loop: an exception raised by the body leaves the loop. *)
Fixpoint for_each {A} (l : list A) (body : A -> M unit) : M unit :=
  match l with
  | [] => ret tt
  | a :: l' => body a ;;; for_each l' body
  end.

(** ** Vocabulary of the specification *)

(** The (entity_key, date) pair of a record. *)
Definition key {Y} (r : Long.row date Y) : option string * option date :=
  (Long.unique_id r, Long.ds r).

(** No two records share an (entity_key, date) pair. *)
Definition unique_keys {Y} (df : list (Long.row date Y)) : Prop :=
  NoDup (map key df).

(** The (A, B, C) triple of a snapshot row. *)
Definition triple (r : Wide.row) : option string * option string * option string :=
  (Wide.Client r, Wide.Warehouse r, Wide.Product r).

(** The records of the persisted table; none while the file is absent. *)
Definition persisted (w : world) : Long.frame :=
  match parquet w with
  | Some df => df
  | None => []
  end.

(** The world a call leaves behind, whether it returned or raised. *)
Definition after {A} (m : M A) (w : world) : world := snd (m w).

(** The world after [print line]. *)
Definition printed (line : string) (w : world) : world :=
  mkWorld (listdir w) (raw w) (parquet w) (writes w) (stdout w ++ [line]).

(** ** Definitions used in the statements *)

Class CompareOk {A : Type} (cmp : A -> A -> comparison) : Prop := {
  cmp_eq : forall x y, cmp x y = Eq <-> x = y;
  cmp_antisym : forall x y, cmp x y = CompOpp (cmp y x);
  cmp_lt_trans : forall x y z, cmp x y = Lt -> cmp y z = Lt -> cmp x z = Lt
}.

Definition lex_compare {A B} (ca : A -> A -> comparison)
    (cb : B -> B -> comparison) (p q : A * B) : comparison :=
  match ca (fst p) (fst q) with
  | Eq => cb (snd p) (snd q)
  | c => c
  end.

(** A date as the triple its comparison reads. *)
Definition ymd (d : date) : nat * (nat * nat) := (year d, (month d, day d)).

(** The world after [write_parquet df]. *)
Definition written (df : Long.frame) (w : world) : world :=
  mkWorld (listdir w) (raw w) (Some df) (S (writes w)) (stdout w).

(** The record is one observed on date [D]. *)
Definition dated (D : date) (r : Long.record) : bool :=
  option_date_eqb (Long.ds r) (Some D).

(** Two lists of dates that the merge cannot tell apart: it only asks
    whether the list is empty and whether a record's date is in it. *)
Definition same_dates (l l' : list date) : Prop :=
  (l = [] <-> l' = []) /\ (forall r : Long.record, is_in l r = is_in l' r).

(** At most one snapshot row per (A, B, C) triple. *)
Definition one_row_per_triple (df : Wide.frame) : Prop :=
  NoDup (map triple (Wide.rows df)).

(** At most one snapshot row per entity key, as line 60 derives it. *)
Definition one_row_per_key (df : Wide.frame) : Prop :=
  NoDup (map unique_id_of (Wide.rows df)).

(** No two date columns are read as the same date. *)
Definition distinct_dates (df : Wide.frame) : Prop :=
  NoDup (map strptime (dates_from_new_file df)).

(** The snapshot can be merged: its identifier columns exist and every
    other column is named by a date. *)
Definition readable (df : Wide.frame) : bool :=
  match require_columns original_cat_cols df,
        traverse parse_column (dates_from_new_file df) with
  | Ok _, Ok _ => true
  | _, _ => false
  end.

(** The record's date is one the table [old] does not hold. *)
Definition fresh (old : Long.frame) (r : Long.record) : bool :=
  match Long.ds r with
  | Some d => negb (existsb (option_date_eqb (Some d)) (map Long.ds old))
  | None => false
  end.

(** The date columns of [df] whose date the table [old] does not hold. *)
Definition novel_columns (df : Wide.frame) (old : Long.frame) : list string :=
  filter (fun col =>
            match strptime col with
            | Some d => negb (existsb (option_date_eqb (Some d)) (map Long.ds old))
            | None => false
            end)
         (dates_from_new_file df).

(** The dates the date columns of the file [name] are read as; none when
    the file is absent. *)
Definition file_dates (w : world) (name : string) : list (option date) :=
  match raw w name with
  | Some df => map strptime (dates_from_new_file df)
  | None => []
  end.

(** The test of line 38 on a directory entry. *)
Definition selected (file_name file : string) : bool :=
  startswith file file_name && endswith file ".csv".

(** The string contains the separator of the entity key. *)
Fixpoint has_slash (s : string) : bool :=
  match s with
  | EmptyString => false
  | String c s' => Ascii.eqb c "/"%char || has_slash s'
  end.

(** The identifiers of the row are there and neither Client nor Warehouse
    holds the separator. *)
Definition plain_identifiers (r : Wide.row) : Prop :=
  exists c w p,
    Wide.Client r = Some c /\ Wide.Warehouse r = Some w /\
    Wide.Product r = Some p /\ has_slash c = false /\ has_slash w = false.

(** The table of [w] holds every date of the file [name], a file that can
    be merged. *)
Definition covered (w : world) (name : string) : Prop :=
  exists df old dates,
    raw w name = Some df /\
    require_columns original_cat_cols df = Ok tt /\
    parquet w = Some old /\
    traverse parse_column (dates_from_new_file df) = Ok dates /\
    forall d, In d dates -> In (Some d) (map Long.ds old).

(** The record has a date, and it is a day of the calendar. *)
Definition well_dated (r : Long.record) : Prop :=
  exists d, Long.ds r = Some d /\
            make_date (year d) (month d) (day d) = Some d.

(** Two worlds with the same raw files and the same persisted table. *)
Definition same_files (w1 w2 : world) : Prop :=
  raw w1 = raw w2 /\ parquet w1 = parquet w2.

(** The date cast reads every column name [strptime] reads, and as the
    same date; it may read more. *)
Definition reads_like_strptime (cast : string -> option date) : Prop :=
  forall s d, strptime s = Some d -> cast s = Some d.

(** The text of a column name lies in ASCII (every byte below 128), where
    [strptime] above is CPython's: its digit class also takes the digits
    of other scripts. *)
Definition is_ascii (s : string) : bool :=
  forallb (fun c => nat_of_ascii c <? 128) (list_ascii_of_string s).

Definition ascii_names (df : Wide.frame) : Prop :=
  forall c, In c (Wide.columns df) -> is_ascii c = true.

(** ** Example data *)

(** A positive binary64 number, [m * 2^e] with a 53-bit mantissa. *)
Definition b64 (m : positive) (e : Z) : float64 := S754_finite false m e.

Definition f5 : float64 := b64 5629499534213120 (-50).   (* 5.0 *)
Definition f7 : float64 := b64 7881299347898368 (-50).   (* 7.0 *)
Definition f10 : float64 := b64 5629499534213120 (-49).  (* 10.0 *)
Definition f99 : float64 := b64 6966505673588736 (-46).  (* 99.0 *)

(** A snapshot row from its identifiers and its cells by column name. *)
Fixpoint lookup (cells : list (string * float64)) (col : string) : value :=
  match cells with
  | [] => Null
  | (c, v) :: cells' => if String.eqb c col then Float v else lookup cells' col
  end.

Definition wide_row (client warehouse product : string)
    (cells : list (string * float64)) : Wide.row :=
  Wide.mkRow (Some client) (Some warehouse) (Some product) (lookup cells).

Definition header (date_columns : list string) : list string :=
  "Client" :: "Warehouse" :: "Product" :: date_columns.

(** One directory of raw files, from a list of named snapshots. *)
Fixpoint files (fs : list (string * Wide.frame)) (name : string)
    : option Wide.frame :=
  match fs with
  | [] => None
  | (n, df) :: fs' => if String.eqb n name then Some df else files fs' name
  end.

Definition world_of (fs : list (string * Wide.frame)) (stored : Long.frame)
    : world :=
  mkWorld (map fst fs) (files fs) (Some stored) 0 [].

Definition jan1 : date := mkDate 2024 1 1.
Definition jan2 : date := mkDate 2024 1 2.

(** The stored record of entity C1/W1/P1 on 2024-01-01, value 10.0. *)
Definition stored_e1 : Long.record :=
  Long.mkRow (Some jan1) (Some f10) (Some "C1/W1/P1")
             (Some "C1") (Some "W1") (Some "P1").

(** A later snapshot: it re-reports 2024-01-01 for C1/W1/P1 with 99.0,
    reports it for C2/W1/P1, which has no stored record, and brings
    2024-01-02 for both. *)
Definition revised : Wide.frame :=
  Wide.mkFrame (header ["2024-01-01"; "2024-01-02"])
    [wide_row "C1" "W1" "P1" [("2024-01-01", f99); ("2024-01-02", f7)];
     wide_row "C2" "W1" "P1" [("2024-01-01", f5); ("2024-01-02", f5)]].

Definition revised_world : world :=
  world_of [("sales_2.csv", revised)] [stored_e1].

(** A stored table in the wrong order and a snapshot with its date columns
    in the wrong order. *)
Definition unordered_world : world :=
  world_of
    [("sales_3.csv",
      Wide.mkFrame (header ["2024-01-02"; "2024-01-01"])
        [wide_row "C2" "W1" "P1" [("2024-01-01", f5); ("2024-01-02", f7)];
         wide_row "C1" "W1" "P1" [("2024-01-01", f10); ("2024-01-02", f99)]])]
    [Long.mkRow (Some (mkDate 2023 12 31)) (Some f5) (Some "C2/W1/P1")
                (Some "C2") (Some "W1") (Some "P1");
     Long.mkRow (Some (mkDate 2023 12 31)) (Some f7) (Some "C1/W1/P1")
                (Some "C1") (Some "W1") (Some "P1")].

(** The stored table holds 2024-01-01 for both entities of a snapshot that
    has only that date column. *)
Definition overlap_snapshot : Wide.frame :=
  Wide.mkFrame (header ["2024-01-01"])
    [wide_row "C1" "W1" "P1" [("2024-01-01", f99)];
     wide_row "C2" "W1" "P1" [("2024-01-01", f7)]].

Definition overlap_stored : Long.frame :=
  [stored_e1;
   Long.mkRow (Some jan1) (Some f5) (Some "C2/W1/P1")
              (Some "C2") (Some "W1") (Some "P1")].

Definition overlap_world : world :=
  world_of [("sales_4.csv", overlap_snapshot)] overlap_stored.

(** The snapshot of the specification's fatal scenario: a column named
    Region. *)
Definition region_snapshot : Wide.frame :=
  Wide.mkFrame (header ["2024-01-02"; "Region"; "2024-01-03"])
    [wide_row "C1" "W1" "P1" [("2024-01-02", f7); ("2024-01-03", f5)]].

Definition region_world : world :=
  world_of [("sales_5.csv", region_snapshot)] [stored_e1].

(** Two rows with different (A, B, C) triples and the same derived key
    a/b/c/d. *)
Definition collide_snapshot : Wide.frame :=
  Wide.mkFrame (header ["2024-01-01"])
    [wide_row "a/b" "c" "d" [("2024-01-01", f5)];
     wide_row "a" "b/c" "d" [("2024-01-01", f7)]].

Definition collide_world : world :=
  world_of [("sales_6.csv", collide_snapshot)] [].

(** A CSV file with a header line and no data line. *)
Definition header_only : Wide.frame :=
  Wide.mkFrame (header ["2024-01-02"]) [].

Definition header_only_world : world :=
  world_of [("sales_7.csv", header_only)] [stored_e1].

(** A batch of three: a good file, the file with the Region column, and a
    good file. *)
Definition good_snapshot (col : string) (v : float64) : Wide.frame :=
  Wide.mkFrame (header [col]) [wide_row "C1" "W1" "P1" [(col, v)]].

Definition batch_world : world :=
  world_of [("sales_a.csv", good_snapshot "2024-01-02" f7);
            ("sales_b.csv", region_snapshot);
            ("sales_c.csv", good_snapshot "2024-01-04" f5)]
           [stored_e1].

(** A snapshot row whose Client cell is empty in the CSV file. *)
Definition null_client : Wide.frame :=
  Wide.mkFrame (header ["2024-01-01"])
    [Wide.mkRow None (Some "W1") (Some "P1") (lookup [("2024-01-01", f5)])].

(** A snapshot row from its identifiers and cells of any kind. *)
Fixpoint lookup_value (cells : list (string * value)) (col : string) : value :=
  match cells with
  | [] => Null
  | (c, v) :: cells' => if String.eqb c col then v else lookup_value cells' col
  end.

(** A snapshot whose 2024-01-02 column holds an integer in one row and
    the text n/a in the other. *)
Definition text_cell : Wide.frame :=
  Wide.mkFrame (header ["2024-01-02"])
    [Wide.mkRow (Some "C1") (Some "W1") (Some "P1")
                (lookup_value [("2024-01-02", Int 7)]);
     Wide.mkRow (Some "C2") (Some "W1") (Some "P1")
                (lookup_value [("2024-01-02", Text "n/a")])].

(** The same snapshot with the text replaced by the text of a number. *)
Definition int_cell : Wide.frame :=
  Wide.mkFrame (header ["2024-01-02"])
    [Wide.mkRow (Some "C1") (Some "W1") (Some "P1")
                (lookup_value [("2024-01-02", Int 7)]);
     Wide.mkRow (Some "C2") (Some "W1") (Some "P1")
                (lookup_value [("2024-01-02", Text "5")])].

Definition cells_world : world :=
  world_of [("sales_8.csv", text_cell); ("sales_9.csv", int_cell)] [stored_e1].

(** A snapshot whose date column is written with a space in front. *)
Definition spaced : Wide.frame :=
  Wide.mkFrame (header [" 2024-01-02"])
    [Wide.mkRow (Some "C1") (Some "W1") (Some "P1")
                (lookup_value [(" 2024-01-02", Int 7)])].

(** ** Two casts to run the examples with *)

Fixpoint drop_spaces (s : string) : string :=
  match s with
  | String c s' => if is_space c then drop_spaces s' else s
  | EmptyString => s
  end.

(** A date cast that reads what [strptime] reads and, beyond it, a name
    with spaces in front. *)
Definition lenient_date (s : string) : option date :=
  match strptime s with
  | Some d => Some d
  | None => strptime (drop_spaces s)
  end.

Fixpoint decimal (s : string) (acc : Z) : option Z :=
  match s with
  | EmptyString => Some acc
  | String c s' =>
      match digit c with
      | Some n => decimal s' (10 * acc + Z.of_nat n)
      | None => None
      end
  end.

(** A float cast that reads the texts made of digits only. *)
Definition digits_float (s : string) : option float64 :=
  match s with
  | EmptyString => None
  | _ => option_map float_of_int (decimal s 0)
  end.

(** * The methods, for any reading of the two casts *)

Section Library.

(** [cast(pl.Date)] on a string: the date read, or none where the strict
    cast raises. *)
Variable polars_date : string -> option date.

(** [cast(pl.Float64)] on a string: the float read, or none where the
    strict cast raises. *)
Variable polars_float : string -> option float64.

(** [pl.col('ds').cast(pl.Date)], a strict cast: a null stays null, a
    string the cast does not read raises. *)
Definition cast_ds {Y} (r : Long.row string Y) : result (Long.row date Y) :=
  match Long.ds r with
  | None => Ok (with_ds r None)
  | Some s =>
      match polars_date s with
      | Some d => Ok (with_ds r (Some d))
      | None => Raise (InvalidOperationError s)
      end
  end.

(** The strict cast of one cell to [pl.Float64]. *)
Definition cast_value (v : value) : result (option float64) :=
  match v with
  | Null => Ok None
  | Int z => Ok (Some (float_of_int z))
  | Float f => Ok (Some f)
  | Text s =>
      match polars_float s with
      | Some f => Ok (Some f)
      | None => Raise (InvalidOperationError s)
      end
  end.

(** [pl.col('y').cast(pl.Float64)] on one row. *)
Definition cast_y {D} (r : Long.row D value)
    : result (Long.row D (option float64)) :=
  result_bind (cast_value (Long.y r)) (fun v => Ok (with_y r v)).

(** ** [prepare_raw_csv] *)

Definition prepare_raw_csv (df : Wide.frame)
    : result (list (Long.row date value)) :=
  result_bind (require_columns original_cat_cols df) (fun _ =>
  result_bind (traverse cast_ds (unpivot df)) (fun long =>
  Ok (sort long))).

(** ** [merge_new_data_with_preprocessed_data] *)

(** Lines 107-111: the reshaped snapshot, its [y] cast to Float64, then
    the rows of the new dates. *)
Definition new_df_processed (new_df : Wide.frame) (novel : list date)
    : result Long.frame :=
  result_bind (prepare_raw_csv new_df) (fun long =>
  result_bind (traverse cast_y long) (fun casted =>
  Ok (filter (is_in novel) casted))).

Definition merge_new_data_with_preprocessed_data
    (new_data_file_name : string) : M unit :=
  new_df <- read_csv new_data_file_name ;;
  lift (require_columns original_cat_cols new_df) ;;;
  old_df <- read_parquet ;;
  date_from_new_file_datetime_format <-
    lift (traverse parse_column (dates_from_new_file new_df)) ;;
  match dates_that_are_not_overlapping old_df
          date_from_new_file_datetime_format with
  | [] => print all_overlapping_msg
  | novel =>
      processed <- lift (new_df_processed new_df novel) ;;
      write_parquet (sort (old_df ++ processed)) ;;;
      print (merged_msg new_data_file_name)
  end.

(** ** [process_files] *)

(** The body of the loop of lines 37-40 on one directory entry. *)
Definition visit (file_name file : string) : M unit :=
  if startswith file file_name && endswith file ".csv"
  then print file ;;; merge_new_data_with_preprocessed_data file
  else ret tt.

Definition process_files (file_name : string) : M Long.frame :=
  files <- os_listdir ;;
  for_each files (visit file_name) ;;;
  read_parquet.

(** ** Definitions used in the statements about the methods *)

(** A sequence of merges, one per file name, each started in the world the
    previous one left, whatever its outcome. *)
Fixpoint merges (names : list string) (w : world) : world :=
  match names with
  | [] => w
  | name :: names' =>
      merges names' (after (merge_new_data_with_preprocessed_data name) w)
  end.

(** What [prepare_raw_csv] returns, before its final sort: for each value
    column in header order, one row per input row, dated by the column. *)
Definition melted (df : Wide.frame) : list (Long.row date value) :=
  flat_map (fun col => map (fun r => long_row r col (polars_date col))
                           (Wide.rows df))
           (value_columns df).

(** Lines 108-109: the reshaped snapshot with its [y] cast. *)
Definition reshaped (df : Wide.frame) : result Long.frame :=
  result_bind (prepare_raw_csv df) (traverse cast_y).

Inductive merge_outcome (name : string) (w : world)
    : result unit -> world -> Prop :=
| Aborted (e : exn) :
    merge_outcome name w (Raise e) w
| Overlapping (df : Wide.frame) (old : Long.frame) (dates : list date) :
    raw w name = Some df ->
    require_columns original_cat_cols df = Ok tt ->
    parquet w = Some old ->
    traverse parse_column (dates_from_new_file df) = Ok dates ->
    dates_that_are_not_overlapping old dates = [] ->
    merge_outcome name w (Ok tt) (printed all_overlapping_msg w)
| Merged (df : Wide.frame) (old : Long.frame) (dates : list date)
         (casted : Long.frame) :
    raw w name = Some df ->
    require_columns original_cat_cols df = Ok tt ->
    parquet w = Some old ->
    traverse parse_column (dates_from_new_file df) = Ok dates ->
    dates_that_are_not_overlapping old dates <> [] ->
    reshaped df = Ok casted ->
    merge_outcome name w (Ok tt)
      (printed (merged_msg name)
         (written
            (sort (old ++ filter (is_in (dates_that_are_not_overlapping old dates))
                                 casted))
            w)).

(** The table a writing merge persists. *)
Definition merged_table (casted old : Long.frame) (dates : list date)
    : Long.frame :=
  sort (old ++ filter (is_in (dates_that_are_not_overlapping old dates)) casted).

(** What the file [name] contributes to a table holding [old]: nothing
    when it is absent or cannot be merged. *)
Definition contribution (w : world) (name : string) (old : Long.frame)
    : Long.frame :=
  match raw w name with
  | Some df =>
      if readable df then
        match reshaped df with
        | Ok casted => filter (fresh old) casted
        | Raise _ => []
        end
      else []
  | None => []
  end.

(** A merge of the file [name] cannot change the table of [w]: the table
    holds every date of the file, or the file has a cell that is no
    number. *)
Definition idle (w : world) (name : string) : Prop :=
  covered w name \/
  exists df e,
    raw w name = Some df /\ readable df = true /\ reshaped df = Raise e.

(** * Properties *)

(** ** What [strptime] reads *)

Example strptime_iso : strptime "2024-01-02" = Some (mkDate 2024 1 2).
Proof. reflexivity. Qed.
Example strptime_unpadded : strptime "2024-1-2" = Some (mkDate 2024 1 2).
Proof. reflexivity. Qed.
Example strptime_leap : strptime "2024-02-29" = Some (mkDate 2024 2 29).
Proof. reflexivity. Qed.
Example strptime_not_leap : strptime "2023-02-29" = None.
Proof. reflexivity. Qed.
Example strptime_trailing : strptime "2024-01-311" = None.
Proof. reflexivity. Qed.
Example strptime_region : strptime "Region" = None.
Proof. reflexivity. Qed.

(** ** Comparisons that are total orders *)

#[local] Instance nat_compare_ok : CompareOk Nat.compare.
Proof.
  split.
  - apply Nat.compare_eq_iff.
  - intros x y. apply Nat.compare_antisym.
  - intros x y z. rewrite !Nat.compare_lt_iff. lia.
Qed.

#[local] Instance ascii_compare_ok : CompareOk Ascii.compare.
Proof.
  split.
  - intros x y. split.
    + apply Ascii.compare_eq_iff.
    + intros ->. unfold Ascii.compare. apply N.compare_refl.
  - apply Ascii.compare_antisym.
  - intros x y z. unfold Ascii.compare. rewrite !N.compare_lt_iff. lia.
Qed.

#[local] Instance option_compare_ok {A} (cmp : A -> A -> comparison)
    `{!CompareOk cmp} : CompareOk (option_compare cmp).
Proof.
  split.
  - intros [x|] [y|]; simpl; try (split; congruence).
    rewrite cmp_eq. split; congruence.
  - intros [x|] [y|]; simpl; auto. apply cmp_antisym.
  - intros [x|] [y|] [z|]; simpl; try congruence. apply cmp_lt_trans.
Qed.

#[local] Instance lex_compare_ok {A B} (ca : A -> A -> comparison)
    (cb : B -> B -> comparison) `{!CompareOk ca} `{!CompareOk cb} :
  CompareOk (lex_compare ca cb).
Proof.
  split.
  - intros [a b] [a' b']. unfold lex_compare. simpl. split.
    + destruct (ca a a') eqn:E; try discriminate.
      intros H. apply cmp_eq in E. apply cmp_eq in H. congruence.
    + intros [= -> ->].
      replace (ca a' a') with Eq by (symmetry; now apply cmp_eq).
      now apply cmp_eq.
  - intros [a b] [a' b']. unfold lex_compare. simpl.
    rewrite (cmp_antisym (cmp := ca) a a').
    destruct (ca a' a); simpl; auto. apply cmp_antisym.
  - intros [a b] [a' b'] [a'' b'']. unfold lex_compare. simpl.
    destruct (ca a a') eqn:E1; try discriminate;
      destruct (ca a' a'') eqn:E2; try discriminate.
    + apply cmp_eq in E1. apply cmp_eq in E2. subst.
      replace (ca a'' a'') with Eq by (symmetry; now apply cmp_eq).
      apply cmp_lt_trans.
    + apply cmp_eq in E1. subst. now rewrite E2.
    + apply cmp_eq in E2. subst. now rewrite E1.
    + now rewrite (cmp_lt_trans _ _ _ E1 E2).
Qed.

#[local] Instance string_compare_ok : CompareOk String.compare.
Proof.
  split.
  - intros x y. split.
    + apply String.compare_eq_iff.
    + intros ->. induction y as [|c y IH]; simpl; auto.
      replace (Ascii.compare c c) with Eq
        by (symmetry; now apply (cmp_eq (cmp := Ascii.compare))).
      exact IH.
  - apply String.compare_antisym.
  - induction x as [|a x IH]; intros [|b y] [|c z]; simpl; try congruence.
    destruct (Ascii.compare a b) eqn:E1; try discriminate;
      destruct (Ascii.compare b c) eqn:E2; try discriminate; intros H1 H2.
    + apply (cmp_eq (cmp := Ascii.compare)) in E1, E2. subst.
      replace (Ascii.compare c c) with Eq
        by (symmetry; now apply (cmp_eq (cmp := Ascii.compare))).
      eapply IH; eauto.
    + apply (cmp_eq (cmp := Ascii.compare)) in E1. subst. now rewrite E2.
    + apply (cmp_eq (cmp := Ascii.compare)) in E2. subst. now rewrite E1.
    + now rewrite (cmp_lt_trans (cmp := Ascii.compare) _ _ _ E1 E2).
Qed.

Lemma date_compare_lex (a b : date) :
  date_compare a b =
  lex_compare Nat.compare (lex_compare Nat.compare Nat.compare) (ymd a) (ymd b).
Proof. reflexivity. Qed.

Lemma ymd_inj (a b : date) : ymd a = ymd b -> a = b.
Proof. destruct a, b. unfold ymd. simpl. congruence. Qed.

#[local] Instance date_compare_ok : CompareOk date_compare.
Proof.
  pose proof (lex_compare_ok Nat.compare (lex_compare Nat.compare Nat.compare)) as L.
  split.
  - intros x y. rewrite date_compare_lex, cmp_eq. split.
    + apply ymd_inj.
    + now intros ->.
  - intros x y. rewrite !date_compare_lex. apply cmp_antisym.
  - intros x y z. rewrite !date_compare_lex. apply cmp_lt_trans.
Qed.

Lemma key_compare_lex {Y} (a b : Long.row date Y) :
  key_compare a b =
  lex_compare (option_compare String.compare) (option_compare date_compare)
              (key a) (key b).
Proof. reflexivity. Qed.

Lemma key_leb_total {Y} (a b : Long.row date Y) :
  key_leb a b = true \/ key_leb b a = true.
Proof.
  unfold key_leb. rewrite !key_compare_lex.
  rewrite (cmp_antisym (key a) (key b)).
  destruct (lex_compare _ _ (key b) (key a)); simpl; auto.
Qed.

Lemma key_le_trans {Y} (a b c : Long.row date Y) :
  key_le a b -> key_le b c -> key_le a c.
Proof.
  unfold key_le, key_leb. rewrite !key_compare_lex.
  destruct (lex_compare _ _ (key a) (key b)) eqn:E1; try discriminate;
    destruct (lex_compare _ _ (key b) (key c)) eqn:E2; try discriminate;
    intros _ _.
  - apply cmp_eq in E1. rewrite E1, E2. reflexivity.
  - apply cmp_eq in E1. rewrite E1, E2. reflexivity.
  - apply cmp_eq in E2. rewrite <- E2, E1. reflexivity.
  - now rewrite (cmp_lt_trans _ _ _ E1 E2).
Qed.

(** Rows compare as equal exactly when they carry the same key. *)
Lemma key_compare_eq {Y} (a b : Long.row date Y) :
  key_compare a b = Eq <-> key a = key b.
Proof. rewrite key_compare_lex. apply cmp_eq. Qed.

(** ** The sort *)

Lemma insert_row_perm {Y} (x : Long.row date Y) (l : list (Long.row date Y)) :
  Permutation (insert_row x l) (x :: l).
Proof.
  induction l as [|h t IH]; simpl; auto.
  destruct (key_leb x h); auto.
  rewrite IH. apply perm_swap.
Qed.

Lemma sort_perm {Y} (l : list (Long.row date Y)) : Permutation (sort l) l.
Proof.
  induction l as [|x l IH]; simpl; auto.
  rewrite insert_row_perm. now constructor.
Qed.

Lemma insert_row_hd {Y} (x a : Long.row date Y) (l : list (Long.row date Y)) :
  key_le a x -> HdRel key_le a l -> HdRel key_le a (insert_row x l).
Proof.
  intros Hax Hal. destruct l as [|h t]; simpl.
  - now constructor.
  - destruct (key_leb x h); constructor; auto. now inversion Hal.
Qed.

Lemma insert_row_sorted {Y} (x : Long.row date Y) (l : list (Long.row date Y)) :
  Sorted key_le l -> Sorted key_le (insert_row x l).
Proof.
  induction 1 as [|h t Hs IH Hh]; simpl.
  - repeat constructor.
  - destruct (key_leb x h) eqn:E.
    + constructor; [constructor; auto | constructor; exact E].
    + constructor; auto. apply insert_row_hd; auto.
      destruct (key_leb_total x h) as [H|H]; [congruence | exact H].
Qed.

Lemma sort_sorted {Y} (l : list (Long.row date Y)) : Sorted key_le (sort l).
Proof.
  induction l as [|x l IH]; simpl.
  - constructor.
  - now apply insert_row_sorted.
Qed.

Lemma sort_strongly_sorted {Y} (l : list (Long.row date Y)) : StronglySorted key_le (sort l).
Proof.
  apply Sorted_StronglySorted.
  - intros a b c. apply key_le_trans.
  - apply sort_sorted.
Qed.

Lemma sort_In {Y} (l : list (Long.row date Y)) (r : Long.row date Y) : In r (sort l) <-> In r l.
Proof.
  split; apply Permutation_in; [| symmetry]; apply sort_perm.
Qed.

(** ** Equality tests *)

Lemma date_eqb_eq (a b : date) : date_eqb a b = true <-> a = b.
Proof.
  destruct a as [y m d], b as [y' m' d']. unfold date_eqb. simpl.
  rewrite !andb_true_iff, !Nat.eqb_eq. split.
  - intros [[-> ->] ->]. reflexivity.
  - intros [= -> -> ->]. auto.
Qed.

Lemma option_date_eqb_eq (a b : option date) :
  option_date_eqb a b = true <-> a = b.
Proof.
  destruct a as [x|], b as [y|]; simpl; try (split; congruence).
  rewrite date_eqb_eq. split; congruence.
Qed.

Lemma existsb_option_date (a : option date) (l : list (option date)) :
  existsb (option_date_eqb a) l = true <-> In a l.
Proof.
  rewrite existsb_exists. split.
  - intros [x [Hx E]]. apply option_date_eqb_eq in E. now subst.
  - intros H. exists a. split; auto. now apply option_date_eqb_eq.
Qed.

Lemma existsb_date (d : date) (l : list date) :
  existsb (date_eqb d) l = true <-> In d l.
Proof.
  rewrite existsb_exists. split.
  - intros [x [Hx E]]. apply date_eqb_eq in E. now subst.
  - intros H. exists d. split; auto. now apply date_eqb_eq.
Qed.

Lemma str_in_In (c : string) (l : list string) : str_in c l = true <-> In c l.
Proof.
  unfold str_in. rewrite existsb_exists. split.
  - intros [x [Hx E]]. apply String.eqb_eq in E. now subst.
  - intros H. exists c. split; auto. apply String.eqb_refl.
Qed.

Lemma unique_In (a : option date) (l : list (option date)) :
  In a (unique l) <-> In a l.
Proof.
  induction l as [|b l IH]; simpl; [tauto|].
  destruct (existsb (option_date_eqb b) l) eqn:E.
  - rewrite IH. apply existsb_option_date in E. split; auto.
    intros [<-|H]; auto.
  - simpl. now rewrite IH.
Qed.

Lemma unique_NoDup (l : list (option date)) : NoDup (unique l).
Proof.
  induction l as [|b l IH]; simpl; [constructor|].
  destruct (existsb (option_date_eqb b) l) eqn:E; auto.
  constructor; auto. rewrite unique_In, <- existsb_option_date. congruence.
Qed.

Lemma option_date_eq_dec (a b : option date) : {a = b} + {a <> b}.
Proof.
  destruct (option_date_eqb a b) eqn:E.
  - left. now apply option_date_eqb_eq.
  - right. intros H. apply option_date_eqb_eq in H. congruence.
Qed.

(** Membership in the list of line 101 is set difference. *)
Lemma not_overlapping_In (old : Long.frame) (dates : list date) (d : date) :
  In d (dates_that_are_not_overlapping old dates) <->
  In d dates /\ ~ In (Some d) (map Long.ds old).
Proof.
  unfold dates_that_are_not_overlapping, dates_from_old_file.
  rewrite filter_In, negb_true_iff, <- not_true_iff_false.
  now rewrite existsb_option_date, unique_In.
Qed.

Lemma not_overlapping_nil (old : Long.frame) (dates : list date) :
  dates_that_are_not_overlapping old dates = [] <->
  (forall d, In d dates -> In (Some d) (map Long.ds old)).
Proof.
  split.
  - intros E d Hd.
    destruct (in_dec option_date_eq_dec (Some d) (map Long.ds old)) as [H|H]; auto.
    assert (In d (dates_that_are_not_overlapping old dates))
      by (apply not_overlapping_In; auto).
    rewrite E in H0. contradiction.
  - intros H.
    destruct (dates_that_are_not_overlapping old dates) as [|d l] eqn:E; auto.
    assert (In d (dates_that_are_not_overlapping old dates))
      by (rewrite E; now left).
    apply not_overlapping_In in H0. destruct H0 as [Hd Hn]. now apply H in Hd.
Qed.

(** ** Comprehensions that can raise *)

Lemma traverse_ok_Forall2 {A B} (f : A -> result B) (l : list A) (bs : list B) :
  traverse f l = Ok bs <-> Forall2 (fun a b => f a = Ok b) l bs.
Proof.
  revert bs. induction l as [|a l IH]; intros bs; simpl.
  - split.
    + intros [= <-]. constructor.
    + intros H. inversion H. reflexivity.
  - split.
    + destruct (f a) as [b|e] eqn:E; simpl; try discriminate.
      destruct (traverse f l) as [bs'|e] eqn:E'; simpl; try discriminate.
      intros [= <-]. constructor; auto. now apply IH.
    + intros H. inversion H as [|? b ? bs' Hb Hbs]; subst.
      rewrite Hb. simpl. apply IH in Hbs. rewrite Hbs. reflexivity.
Qed.

Lemma traverse_total {A B} (f : A -> result B) (l : list A) :
  (forall a, In a l -> exists b, f a = Ok b) -> exists bs, traverse f l = Ok bs.
Proof.
  induction l as [|a l IH]; intros H; simpl.
  - now exists [].
  - destruct (H a) as [b Hb]; [now left|]. rewrite Hb. simpl.
    destruct IH as [bs Hbs]; [intros; apply H; now right|].
    rewrite Hbs. simpl. now exists (b :: bs).
Qed.

Lemma traverse_raise {A B} (f : A -> result B) (l : list A) (e : exn) :
  traverse f l = Raise e -> exists a, In a l /\ f a = Raise e.
Proof.
  induction l as [|a l IH]; simpl; try discriminate.
  destruct (f a) as [b|e'] eqn:E; simpl.
  - destruct (traverse f l) as [bs|e''] eqn:E'; simpl; try discriminate.
    intros [= <-]. destruct IH as [a' [Hin Ha']]; auto. exists a'. auto.
  - intros [= <-]. exists a. auto.
Qed.

Lemma traverse_fails {A B} (f : A -> result B) (l : list A) (a : A) (e : exn) :
  In a l -> f a = Raise e -> exists e', traverse f l = Raise e'.
Proof.
  induction l as [|x l IH]; simpl; [tauto|].
  intros [->|Hin] Ha.
  - rewrite Ha. simpl. eauto.
  - destruct (f x) as [b|e1]; simpl; eauto.
    destruct (IH Hin Ha) as [e' He']. rewrite He'. simpl. eauto.
Qed.

(** ** The reshaper *)

Lemma traverse_app {A B} (f : A -> result B) (l1 l2 : list A) :
  traverse f (l1 ++ l2) =
  result_bind (traverse f l1) (fun b1 =>
  result_bind (traverse f l2) (fun b2 => Ok (b1 ++ b2))).
Proof.
  induction l1 as [|a l1 IH]; simpl.
  - destruct (traverse f l2); reflexivity.
  - destruct (f a) as [b|e]; simpl; auto. rewrite IH.
    destruct (traverse f l1) as [b1|e]; simpl; auto.
    destruct (traverse f l2) as [b2|e]; simpl; auto.
Qed.

(** Each result of a comprehension comes from an element, and each
    element gives a result. *)
Lemma traverse_In {A B} (f : A -> result B) (l : list A) (bs : list B) :
  traverse f l = Ok bs ->
  (forall a, In a l -> exists b, In b bs /\ f a = Ok b) /\
  (forall b, In b bs -> exists a, In a l /\ f a = Ok b).
Proof.
  rewrite traverse_ok_Forall2.
  induction 1 as [|a b l bs Hab _ [IH1 IH2]].
  - split; intros x [].
  - split.
    + intros x [<-|Hx].
      * exists b. split; auto. now left.
      * destruct (IH1 x Hx) as [y [Hy E]]. exists y. split; auto. now right.
    + intros y [<-|Hy].
      * exists a. split; auto. now left.
      * destruct (IH2 y Hy) as [x [Hx E]]. exists x. split; auto. now right.
Qed.

Lemma cast_column (col : string) (rs : list Wide.row) :
  traverse cast_ds (map (fun r => long_row r col (Some col)) rs) =
  match rs, polars_date col with
  | [], _ => Ok []
  | _ :: _, Some d => Ok (map (fun r => long_row r col (Some d)) rs)
  | _ :: _, None => Raise (InvalidOperationError col)
  end.
Proof.
  destruct rs as [|r0 rs]; auto.
  destruct (polars_date col) as [d|] eqn:E.
  - generalize (r0 :: rs). intros l. induction l as [|r l IH]; simpl; auto.
    unfold cast_ds at 1. simpl. rewrite E. simpl. rewrite IH. reflexivity.
  - simpl. unfold cast_ds at 1. simpl. rewrite E. reflexivity.
Qed.

Lemma cast_unpivot_ok (rs : list Wide.row) (cols : list string)
    (l : list (Long.row date value)) :
  traverse cast_ds
    (flat_map (fun col => map (fun r => long_row r col (Some col)) rs) cols)
  = Ok l ->
  l = flat_map (fun col => map (fun r => long_row r col (polars_date col)) rs)
               cols.
Proof.
  revert l. induction cols as [|c cols IH]; intros l; simpl.
  - now intros [= <-].
  - rewrite traverse_app, cast_column.
    destruct rs as [|r0 rs].
    + simpl. destruct (traverse _ _) as [b|e] eqn:E; simpl; try discriminate.
      intros [= <-]. now apply IH.
    + destruct (polars_date c) as [d|]; cbn [result_bind]; try discriminate.
      destruct (traverse _ _) as [b|e] eqn:E; cbn [result_bind]; try discriminate.
      intros [= <-]. now rewrite <- (IH b eq_refl).
Qed.

Lemma cast_unpivot_total (rs : list Wide.row) (cols : list string) :
  (forall c, In c cols -> polars_date c <> None) ->
  traverse cast_ds
    (flat_map (fun col => map (fun r => long_row r col (Some col)) rs) cols)
  = Ok (flat_map (fun col => map (fun r => long_row r col (polars_date col)) rs)
                 cols).
Proof.
  induction cols as [|c cols IH]; intros H; simpl; auto.
  rewrite traverse_app, cast_column, IH by (intros; apply H; now right).
  destruct rs as [|r0 rs]; auto.
  destruct (polars_date c) as [d|] eqn:E; auto.
  exfalso. apply (H c); auto. now left.
Qed.

Lemma require_columns_ok (names : list string) (df : Wide.frame) :
  require_columns names df = Ok tt <->
  (forall c, In c names -> In c (Wide.columns df)).
Proof.
  induction names as [|c names IH]; simpl.
  - split; auto. intros _ c [].
  - destruct (str_in c (Wide.columns df)) eqn:E.
    + rewrite IH. apply str_in_In in E. split.
      * intros H x [<-|Hx]; auto.
      * intros H x Hx. apply H. now right.
    + split; try discriminate. intros H.
      assert (In c (Wide.columns df)) by (apply H; now left).
      apply str_in_In in H0. congruence.
Qed.

(** A returned table is the sorted melt of the input. *)
Lemma prepare_raw_csv_ok (df : Wide.frame) (long : list (Long.row date value)) :
  prepare_raw_csv df = Ok long -> long = sort (melted df).
Proof.
  unfold prepare_raw_csv, unpivot, melted.
  destruct (require_columns original_cat_cols df); simpl; try discriminate.
  destruct (traverse cast_ds _) as [l|e] eqn:E; simpl; try discriminate.
  intros [= <-]. f_equal. now apply cast_unpivot_ok.
Qed.

(** The reshaper returns when the identifier columns exist and the date
    cast reads every value column. *)
Lemma prepare_raw_csv_total (df : Wide.frame) :
  (forall c, In c original_cat_cols -> In c (Wide.columns df)) ->
  (forall c, In c (value_columns df) -> polars_date c <> None) ->
  prepare_raw_csv df = Ok (sort (melted df)).
Proof.
  intros Hid Hd. unfold prepare_raw_csv, unpivot, melted.
  apply require_columns_ok in Hid. rewrite Hid. simpl.
  rewrite cast_unpivot_total by exact Hd. reflexivity.
Qed.

Lemma melted_In (df : Wide.frame) (x : Long.row date value) :
  In x (melted df) <->
  exists col r, In col (value_columns df) /\ In r (Wide.rows df)
                /\ x = long_row r col (polars_date col).
Proof.
  unfold melted. rewrite in_flat_map. split.
  - intros [col [Hc Hx]]. apply in_map_iff in Hx.
    destruct Hx as [r [<- Hr]]. eauto.
  - intros [col [r [Hc [Hr ->]]]]. exists col. split; auto.
    apply in_map_iff. eauto.
Qed.

Lemma melted_length (df : Wide.frame) :
  List.length (melted df) =
  List.length (Wide.rows df) * List.length (value_columns df).
Proof.
  unfold melted. induction (value_columns df) as [|c cols IH]; simpl.
  - now rewrite Nat.mul_0_r.
  - rewrite length_app, length_map, IH. lia.
Qed.

(** Line 92 and [unpivot] select the same columns once every column of
    line 92 is named by a date: ["unique_id"] is not. *)
Lemma value_columns_dates (df : Wide.frame) :
  (forall c, In c (dates_from_new_file df) -> strptime c <> None) ->
  value_columns df = dates_from_new_file df.
Proof using.
  unfold value_columns, dates_from_new_file.
  induction (Wide.columns df) as [|c cols IH]; [reflexivity|].
  cbn [filter]. intros H.
  destruct (str_in c original_cat_cols) eqn:E1; cbn [negb] in H |- *.
  - assert (str_in c unpivot_index = true) as ->.
    { apply str_in_In. apply str_in_In in E1. unfold unpivot_index.
      destruct E1 as [<-|[<-|[<-|[]]]]; simpl; auto. }
    cbn [negb]. exact (IH H).
  - assert (str_in c unpivot_index = false) as ->.
    { apply not_true_iff_false. rewrite str_in_In. intros Hin.
      apply not_true_iff_false in E1. rewrite str_in_In in E1.
      destruct Hin as [<-|Hin].
      - apply (H "unique_id"); [now left | reflexivity].
      - apply E1. destruct Hin as [<-|[<-|[<-|[]]]]; simpl; auto. }
    cbn [negb]. f_equal. apply IH. intros x Hx. apply H. now right.
Qed.

Lemma parse_column_ok (col : string) (d : date) :
  parse_column col = Ok d <-> strptime col = Some d.
Proof.
  unfold parse_column. destruct (strptime col); split; congruence.
Qed.

(** The dates of line 95 are the parsed column names, in header order. *)
Lemma parsed_dates (cols : list string) (dates : list date) :
  traverse parse_column cols = Ok dates -> map strptime cols = map Some dates.
Proof.
  rewrite traverse_ok_Forall2. induction 1 as [|c d cols dates H _ IH]; simpl; auto.
  apply parse_column_ok in H. congruence.
Qed.

Lemma parsed_columns_are_dates (df : Wide.frame) (dates : list date) :
  traverse parse_column (dates_from_new_file df) = Ok dates ->
  forall c, In c (dates_from_new_file df) -> strptime c <> None.
Proof.
  intros Hd c Hc. apply parsed_dates in Hd.
  apply (in_map strptime) in Hc. rewrite Hd in Hc.
  apply in_map_iff in Hc. destruct Hc as [d [<- _]]. discriminate.
Qed.

(** ** The cast of [y] *)

Lemma cast_y_fields {D} (r : Long.row D value) (r' : Long.row D (option float64)) :
  cast_y r = Ok r' ->
  cast_value (Long.y r) = Ok (Long.y r') /\
  Long.ds r' = Long.ds r /\ Long.unique_id r' = Long.unique_id r /\
  Long.Client r' = Long.Client r /\ Long.Warehouse r' = Long.Warehouse r /\
  Long.Product r' = Long.Product r.
Proof.
  unfold cast_y. destruct (cast_value (Long.y r)) as [v|e]; simpl;
    [|discriminate].
  intros [= <-]. simpl. repeat split; reflexivity.
Qed.

Lemma cast_y_key (r : Long.row date value) (r' : Long.record) :
  cast_y r = Ok r' -> key r' = key r.
Proof.
  intros H. apply cast_y_fields in H. unfold key.
  destruct H as [_ [-> [-> _]]]. reflexivity.
Qed.

Lemma cast_keys (l : list (Long.row date value)) (c : Long.frame) :
  traverse cast_y l = Ok c -> map key c = map key l.
Proof.
  rewrite traverse_ok_Forall2. induction 1 as [|a b l c H _ IH]; simpl; auto.
  now rewrite IH, (cast_y_key a b H).
Qed.

Lemma cast_dates (l : list (Long.row date value)) (c : Long.frame) :
  traverse cast_y l = Ok c -> map Long.ds c = map Long.ds l.
Proof.
  intros H. apply cast_keys in H.
  apply (f_equal (map snd)) in H. now rewrite !map_map in H.
Qed.

Lemma cast_length (l : list (Long.row date value)) (c : Long.frame) :
  traverse cast_y l = Ok c -> List.length c = List.length l.
Proof.
  intros H. apply cast_keys in H.
  apply (f_equal (@List.length _)) in H. now rewrite !length_map in H.
Qed.

(** The cast keeps the order of the table. *)
Lemma cast_sorted (l : list (Long.row date value)) (c : Long.frame) :
  traverse cast_y l = Ok c -> Sorted key_le l -> Sorted key_le c.
Proof.
  rewrite traverse_ok_Forall2.
  induction 1 as [|a b l c Hab Hlc IH]; intros S; [constructor|].
  inversion S as [|? ? S' Hd]; subst. constructor; auto.
  destruct Hlc as [|a' b' l c Hab' _]; constructor.
  inversion Hd as [|? ? Hle]; subst.
  unfold key_le, key_leb, key_compare in *.
  apply cast_y_fields in Hab. apply cast_y_fields in Hab'.
  destruct Hab as [_ [-> [-> _]]]. destruct Hab' as [_ [-> [-> _]]].
  exact Hle.
Qed.

Lemma new_df_processed_reshaped (df : Wide.frame) (novel : list date) :
  new_df_processed df novel =
  result_bind (reshaped df) (fun casted => Ok (filter (is_in novel) casted)).
Proof.
  unfold new_df_processed, reshaped.
  destruct (prepare_raw_csv df) as [long|e]; reflexivity.
Qed.

(** The records of the reshaped and cast snapshot: one per snapshot row
    and value column, dated as the date cast reads the column's name. *)
Lemma reshaped_In (df : Wide.frame) (casted : Long.frame) (x : Long.record) :
  reshaped df = Ok casted ->
  In x casted ->
  exists col r,
    In col (value_columns df) /\ In r (Wide.rows df) /\
    Long.ds x = polars_date col /\ Long.unique_id x = unique_id_of r /\
    cast_value (Wide.cell r col) = Ok (Long.y x).
Proof.
  unfold reshaped. destruct (prepare_raw_csv df) as [long|e] eqn:Hp;
    [|discriminate].
  simpl. intros Hc Hx. apply prepare_raw_csv_ok in Hp. subst long.
  destruct (traverse_In _ _ _ Hc) as [_ Back].
  destruct (Back x Hx) as [x0 [Hx0 E]].
  apply sort_In, melted_In in Hx0. destruct Hx0 as [col [r [Hcol [Hr ->]]]].
  apply cast_y_fields in E. simpl in E.
  destruct E as [Hy [Hds [Hu _]]]. exists col, r. auto.
Qed.

Lemma reshaped_has (df : Wide.frame) (casted : Long.frame)
    (col : string) (r : Wide.row) :
  reshaped df = Ok casted ->
  In col (value_columns df) -> In r (Wide.rows df) ->
  exists x, In x casted /\ Long.ds x = polars_date col
            /\ Long.unique_id x = unique_id_of r.
Proof.
  unfold reshaped. destruct (prepare_raw_csv df) as [long|e] eqn:Hp;
    [|discriminate].
  simpl. intros Hc Hcol Hr. apply prepare_raw_csv_ok in Hp. subst long.
  destruct (traverse_In _ _ _ Hc) as [Forth _].
  destruct (Forth (long_row r col (polars_date col))) as [x [Hx E]].
  { apply sort_In, melted_In. eauto. }
  apply cast_y_fields in E. simpl in E. destruct E as [_ [Hds [Hu _]]].
  exists x. auto.
Qed.
(** ** The three ways a merge ends *)

Lemma merge_run (name : string) (w : world) :
  merge_outcome name w
    (fst (merge_new_data_with_preprocessed_data name w))
    (snd (merge_new_data_with_preprocessed_data name w)).
Proof.
  unfold merge_new_data_with_preprocessed_data, bind, read_csv, read_parquet, lift.
  destruct (raw w name) as [df|] eqn:Hraw; [|constructor].
  destruct (require_columns original_cat_cols df) as [[]|e] eqn:Hreq;
    [|constructor].
  destruct (parquet w) as [old|] eqn:Hpq; [|constructor].
  destruct (traverse parse_column (dates_from_new_file df)) as [dates|e] eqn:Hd;
    [|constructor].
  destruct (dates_that_are_not_overlapping old dates) as [|d novel] eqn:Hn.
  - simpl. eapply Overlapping; eauto.
  - rewrite new_df_processed_reshaped.
    destruct (reshaped df) as [casted|e] eqn:Hp; simpl; [|constructor].
    rewrite <- Hn. eapply Merged; eauto. congruence.
Qed.

Lemma merge_cases (name : string) (w w' : world) (res : result unit) :
  merge_new_data_with_preprocessed_data name w = (res, w') ->
  merge_outcome name w res w'.
Proof.
  intros H. pose proof (merge_run name w) as R. now rewrite H in R.
Qed.

(** A merge that raises leaves the world as it found it. *)
Lemma merge_raise_unchanged (name : string) (w w' : world) (e : exn) :
  merge_new_data_with_preprocessed_data name w = (Raise e, w') -> w' = w.
Proof.
  intros H. apply merge_cases in H. now inversion H.
Qed.

(** The persisted table after a merge is the old one with rows added, and
    every added row comes from the reshaped and cast snapshot, with a date
    of the snapshot that the old table does not hold. *)
Lemma merge_adds (name : string) (w w' : world) (res : result unit)
    (old : Long.frame) :
  merge_new_data_with_preprocessed_data name w = (res, w') ->
  parquet w = Some old ->
  exists new added,
    parquet w' = Some new /\
    Permutation new (old ++ added) /\
    (writes w' = writes w -> new = old /\ added = []) /\
    forall r, In r added ->
      (exists df casted,
          raw w name = Some df /\ reshaped df = Ok casted /\ In r casted) /\
      exists d, Long.ds r = Some d /\ In (Some d) (file_dates w name)
                /\ ~ In (Some d) (map Long.ds old).
Proof.
  intros H Hold. apply merge_cases in H.
  inversion H as [e | df old' dates Hraw Hreq Hpq Hd Hn
                    | df old' dates casted Hraw Hreq Hpq Hd Hn Hp]; subst.
  - exists old, []. rewrite app_nil_r.
    split; [exact Hold|]. split; [reflexivity|]. split; [auto|]. intros r [].
  - exists old, []. rewrite app_nil_r.
    split; [exact Hold|]. split; [reflexivity|]. split; [auto|]. intros r [].
  - rewrite Hold in Hpq. injection Hpq as <-.
    exists (sort (old ++ filter (is_in (dates_that_are_not_overlapping old dates))
                                casted)),
           (filter (is_in (dates_that_are_not_overlapping old dates)) casted).
    simpl. split; [reflexivity|]. split; [apply sort_perm|].
    split; [intros E; exfalso; lia|].
    intros r Hr. apply filter_In in Hr. destruct Hr as [Hr Hin]. split.
    + exists df, casted. auto.
    + unfold is_in in Hin. destruct (Long.ds r) as [d|]; try discriminate.
      exists d. split; auto. apply existsb_date in Hin.
      apply not_overlapping_In in Hin. destruct Hin as [Hin Hn'].
      split; auto. unfold file_dates. rewrite Hraw, (parsed_dates _ _ Hd).
      now apply in_map.
Qed.

(** ** First write wins (C1) and the global date horizon (C9) *)

Lemma dated_true (D : date) (r : Long.record) :
  dated D r = true <-> Long.ds r = Some D.
Proof. apply option_date_eqb_eq. Qed.

Lemma filter_perm {A} (f : A -> bool) (l l' : list A) :
  Permutation l l' -> Permutation (filter f l) (filter f l').
Proof.
  induction 1 as [|x l l' _ IH|x y l|l l' l'' _ IH1 _ IH2]; simpl; auto.
  - destruct (f x); auto.
  - destruct (f x), (f y); auto. apply perm_swap.
  - now rewrite IH1.
Qed.

Lemma filter_none {A} (f : A -> bool) (l : list A) :
  (forall a, In a l -> f a = false) -> filter f l = [].
Proof.
  induction l as [|a l IH]; simpl; auto. intros H.
  rewrite (H a) by now left. apply IH. intros; apply H; now right.
Qed.

(** C1 - first write wins.  When the persisted table holds a record for
    date [D], a merge of any snapshot file leaves the records of date [D]
    as they were: whatever the snapshot reports for [D], for the same or
    another value, the table after the merge holds the same records of
    date [D], each as often as before; a stored record (E, D, V) is still
    there and no other record (E, D, V') has appeared.  Every row the merge
    adds has a date the old table did not hold. *)
Theorem first_write_wins (name : string) (w : world) (old : Long.frame)
    (D : date) :
  parquet w = Some old ->
  In (Some D) (map Long.ds old) ->
  exists new added,
    parquet (after (merge_new_data_with_preprocessed_data name) w) = Some new /\
    Permutation new (old ++ added) /\
    (forall r, In r added -> ~ In (Long.ds r) (map Long.ds old)) /\
    Permutation (filter (dated D) new) (filter (dated D) old) /\
    (forall r, Long.ds r = Some D -> (In r new <-> In r old)).
Proof.
  intros Hold HD.
  destruct (merge_adds name w
              (after (merge_new_data_with_preprocessed_data name) w)
              (fst (merge_new_data_with_preprocessed_data name w)) old)
    as [new [added [Hnew [Hperm [_ Hadded]]]]]; auto.
  { unfold after. now destruct (merge_new_data_with_preprocessed_data name w). }
  assert (Hfresh : forall r, In r added -> ~ In (Long.ds r) (map Long.ds old)).
  { intros r Hr. destruct (Hadded r Hr) as [_ [d [Hd [_ Hn]]]]. now rewrite Hd. }
  assert (Hnone : filter (dated D) added = []).
  { apply filter_none. intros r Hr. apply not_true_iff_false.
    rewrite dated_true. intros E. apply (Hfresh r Hr). now rewrite E. }
  exists new, added. repeat split; auto.
  - rewrite (filter_perm _ _ _ Hperm), filter_app, Hnone, app_nil_r. reflexivity.
  - intros Hin. apply (Permutation_in _ Hperm) in Hin.
    apply in_app_or in Hin. destruct Hin as [Hin|Hin]; auto.
    exfalso. apply (Hfresh r Hin). now rewrite H.
  - intros Hin. apply (Permutation_in _ (Permutation_sym Hperm)).
    apply in_or_app. now left.
Qed.

(** C9 - global date horizon.  Overlap is decided against the dates held
    anywhere in the persisted table: when date [D] is stored for at least
    one entity, no row the merge adds has date [D]; in particular an entity
    [E] that had no record for [D] before the merge has none after it,
    whatever the snapshot reports for (E, D). *)
Theorem global_date_horizon (name : string) (w : world) (old : Long.frame)
    (D : date) :
  parquet w = Some old ->
  In (Some D) (map Long.ds old) ->
  exists new added,
    parquet (after (merge_new_data_with_preprocessed_data name) w) = Some new /\
    Permutation new (old ++ added) /\
    (forall r, In r added -> Long.ds r <> Some D) /\
    (forall E,
        (forall r, In r old -> Long.ds r = Some D -> Long.unique_id r <> E) ->
        forall r, In r new -> Long.ds r = Some D -> Long.unique_id r <> E).
Proof.
  intros Hold HD.
  destruct (merge_adds name w
              (after (merge_new_data_with_preprocessed_data name) w)
              (fst (merge_new_data_with_preprocessed_data name w)) old)
    as [new [added [Hnew [Hperm [_ Hadded]]]]]; auto.
  { unfold after. now destruct (merge_new_data_with_preprocessed_data name w). }
  assert (Hfresh : forall r, In r added -> Long.ds r <> Some D).
  { intros r Hr E. destruct (Hadded r Hr) as [_ [d [Hd [_ Hn]]]].
    rewrite Hd in E. injection E as ->. contradiction. }
  exists new, added. repeat split; auto.
  intros E HE r Hr Hds.
  apply (Permutation_in _ Hperm) in Hr. apply in_app_or in Hr.
  destruct Hr as [Hr|Hr]; [now apply HE | now apply Hfresh in Hr].
Qed.

(** ** Ordering (C3) *)

(** C3 - ordering.  A merge that writes persists the concatenation of the
    old table and the processed new rows (the reshaped snapshot, cast and
    filtered to the new dates, lines 107-111), sorted: the table written
    is [sort (old ++ processed)], it holds the records of [old] and of
    [processed], each as often, and it is sorted by entity key (byte-wise
    string order, nulls first) and then by date (chronological): no record
    is followed by one with a smaller (entity_key, date), neither next to
    it nor further on.  Nothing is asked of the order of the old table or
    of the snapshot: the write sorts the concatenation. *)
Theorem sorted_after_write (name : string) (w : world) :
  writes (after (merge_new_data_with_preprocessed_data name) w) <> writes w ->
  exists df old dates processed new,
    raw w name = Some df /\
    parquet w = Some old /\
    traverse parse_column (dates_from_new_file df) = Ok dates /\
    new_df_processed df (dates_that_are_not_overlapping old dates)
      = Ok processed /\
    parquet (after (merge_new_data_with_preprocessed_data name) w) = Some new /\
    new = sort (old ++ processed) /\
    Permutation new (old ++ processed) /\
    Sorted key_le new /\ StronglySorted key_le new.
Proof.
  unfold after. intros Hw.
  pose proof (merge_run name w) as R.
  destruct (merge_new_data_with_preprocessed_data name w) as [res w'].
  simpl in *.
  inversion R as [e | df old dates Hraw Hreq Hpq Hd Hn
                    | df old dates casted Hraw Hreq Hpq Hd Hn Hp];
    subst; simpl in *; try congruence.
  exists df, old, dates,
    (filter (is_in (dates_that_are_not_overlapping old dates)) casted).
  eexists. split; [exact Hraw|]. split; [exact Hpq|]. split; [exact Hd|].
  split; [now rewrite new_df_processed_reshaped, Hp|].
  split; [reflexivity|]. split; [reflexivity|].
  split; [apply sort_perm|]. split.
  - apply sort_sorted.
  - apply sort_strongly_sorted.
Qed.

(** ** The overlap short-circuit (C4) *)

Lemma merge_short_circuit (name : string) (w : world) (df : Wide.frame)
    (old : Long.frame) (dates : list date) :
  raw w name = Some df ->
  require_columns original_cat_cols df = Ok tt ->
  parquet w = Some old ->
  traverse parse_column (dates_from_new_file df) = Ok dates ->
  dates_that_are_not_overlapping old dates = [] ->
  merge_new_data_with_preprocessed_data name w
    = (Ok tt, printed all_overlapping_msg w).
Proof.
  intros Hraw Hid Hpq Hd Hnil.
  unfold merge_new_data_with_preprocessed_data, bind, read_csv, read_parquet, lift.
  rewrite Hraw, Hid, Hpq, Hd, Hnil. reflexivity.
Qed.

Lemma not_overlapping_same (old old' : Long.frame) (dates dates' : list date) :
  (forall od, In od (map Long.ds old) <-> In od (map Long.ds old')) ->
  (forall d, In d dates <-> In d dates') ->
  same_dates (dates_that_are_not_overlapping old dates)
             (dates_that_are_not_overlapping old' dates').
Proof.
  intros Ho Hd. split.
  - rewrite !not_overlapping_nil. split; intros H d Hin.
    + apply Ho, H, Hd, Hin.
    + apply Ho, H, Hd, Hin.
  - intros r. unfold is_in. destruct (Long.ds r) as [d|]; auto.
    apply eq_true_iff_eq. rewrite !existsb_date, !not_overlapping_In.
    now rewrite Hd, Ho.
Qed.

(** C4 - no-op short-circuit.  The list of line 101 is the set difference
    of the snapshot's parsed dates and the dates of the persisted table: a
    date is in it exactly when it is among the former and not among the
    latter; reordering or repeating the dates on either side changes
    neither whether the list is empty nor which records it selects.  When
    that difference is empty, the merge returns without writing: the
    persisted table and the number of writes are as before, and the one
    line printed is the all-dates-overlapping notice. *)
Theorem no_op_short_circuit (name : string) (w : world) (df : Wide.frame)
    (old : Long.frame) (dates : list date) :
  (forall d, In d (dates_that_are_not_overlapping old dates) <->
             In d dates /\ ~ In (Some d) (map Long.ds old)) /\
  (forall old' dates',
      (forall od, In od (map Long.ds old) <-> In od (map Long.ds old')) ->
      (forall d, In d dates <-> In d dates') ->
      same_dates (dates_that_are_not_overlapping old dates)
                 (dates_that_are_not_overlapping old' dates')) /\
  (raw w name = Some df ->
   (forall c, In c original_cat_cols -> In c (Wide.columns df)) ->
   parquet w = Some old ->
   traverse parse_column (dates_from_new_file df) = Ok dates ->
   (forall d, ~ (In d dates /\ ~ In (Some d) (map Long.ds old))) ->
   merge_new_data_with_preprocessed_data name w
     = (Ok tt, printed all_overlapping_msg w) /\
   parquet (after (merge_new_data_with_preprocessed_data name) w) = parquet w /\
   writes (after (merge_new_data_with_preprocessed_data name) w) = writes w /\
   stdout (after (merge_new_data_with_preprocessed_data name) w)
     = stdout w ++ [all_overlapping_msg]).
Proof.
  split; [intros d; apply not_overlapping_In|].
  split; [intros old' dates' Ho Hd; now apply not_overlapping_same|].
  intros Hraw Hid Hpq Hd Hempty.
  assert (Hnil : dates_that_are_not_overlapping old dates = []).
  { destruct (dates_that_are_not_overlapping old dates) as [|d l] eqn:E; auto.
    exfalso. apply (Hempty d). apply not_overlapping_In. rewrite E. now left. }
  assert (Hrun : merge_new_data_with_preprocessed_data name w
                 = (Ok tt, printed all_overlapping_msg w)).
  { apply require_columns_ok in Hid. eapply merge_short_circuit; eauto. }
  unfold after. rewrite Hrun. auto.
Qed.

(** ** Unparseable column names (C6) *)

(** C6 - SchemaError atomicity.  When the snapshot has a column outside
    Client, Warehouse and Product whose name [strptime] does not read as a
    date, the merge raises and leaves the world - the persisted table, the
    number of writes, the output - exactly as it found it.  With the
    identifier columns in the snapshot and the persisted table readable,
    the exception is the [ValueError] of [strptime] on such a column. *)
Theorem schema_error_atomic (name : string) (w : world) (df : Wide.frame)
    (col : string) :
  raw w name = Some df ->
  In col (Wide.columns df) ->
  ~ In col original_cat_cols ->
  strptime col = None ->
  exists e,
    merge_new_data_with_preprocessed_data name w = (Raise e, w) /\
    ((forall c, In c original_cat_cols -> In c (Wide.columns df)) ->
     parquet w <> None ->
     exists bad,
       e = ValueError bad /\ In bad (Wide.columns df) /\
       ~ In bad original_cat_cols /\ strptime bad = None).
Proof.
  intros Hraw Hin Hnot Hnone.
  assert (Hcol : In col (dates_from_new_file df)).
  { unfold dates_from_new_file. apply filter_In. split; auto.
    apply negb_true_iff, not_true_iff_false. now rewrite str_in_In. }
  destruct (traverse_fails parse_column _ col (ValueError col) Hcol) as [e He].
  { unfold parse_column. now rewrite Hnone. }
  unfold merge_new_data_with_preprocessed_data, bind, read_csv, read_parquet, lift.
  rewrite Hraw.
  destruct (require_columns original_cat_cols df) as [[]|e1] eqn:Hreq.
  - destruct (parquet w) as [old|] eqn:Hpq.
    + rewrite He. exists e. split; auto. intros _ _.
      apply traverse_raise in He. destruct He as [bad [Hbad Hp]].
      unfold dates_from_new_file in Hbad. apply filter_In in Hbad.
      destruct Hbad as [Hb1 Hb2].
      apply negb_true_iff, not_true_iff_false in Hb2. rewrite str_in_In in Hb2.
      unfold parse_column in Hp. destruct (strptime bad) eqn:Es; try discriminate.
      injection Hp as <-. exists bad. auto.
    + eexists. split; [reflexivity|]. intros _ H. congruence.
  - eexists. split; [reflexivity|]. intros H.
    apply require_columns_ok in H. congruence.
Qed.

(** ** Where the date cast reads what [strptime] reads *)

Lemma agree_on_dates (cols : list string) :
  reads_like_strptime polars_date ->
  (forall c, In c cols -> strptime c <> None) ->
  map polars_date cols = map strptime cols.
Proof.
  intros Hag. induction cols as [|c cols IH]; intros H; simpl; auto.
  rewrite IH by (intros; apply H; now right). f_equal.
  destruct (strptime c) as [d|] eqn:E.
  - now apply Hag.
  - exfalso. apply (H c); auto. now left.
Qed.

Lemma reshaped_ok (df : Wide.frame) (casted : Long.frame) :
  reshaped df = Ok casted ->
  prepare_raw_csv df = Ok (sort (melted df)) /\
  traverse cast_y (sort (melted df)) = Ok casted.
Proof.
  unfold reshaped. destruct (prepare_raw_csv df) as [long|e] eqn:Hp;
    [|discriminate].
  simpl. intros Hc. apply prepare_raw_csv_ok in Hp. now subst long.
Qed.

(** ** Uniqueness of (entity_key, date) (C2) *)

(** Dropping records keeps the keys apart. *)
Lemma unique_keys_filter (keep : Long.record -> bool) (df : Long.frame) :
  unique_keys df -> unique_keys (filter keep df).
Proof.
  unfold unique_keys. induction df as [|r df IH]; simpl; auto.
  intros H. inversion H as [|? ? Hn Hd]; subst.
  destruct (keep r); simpl; auto.
  constructor; auto. intros Hin. apply Hn.
  apply in_map_iff in Hin. destruct Hin as [x [E Hx]].
  apply filter_In in Hx. apply in_map_iff. exists x. tauto.
Qed.

Lemma NoDup_pairs {A B} (us : list A) (ds : list B) :
  NoDup us -> NoDup ds ->
  NoDup (flat_map (fun d => map (fun u => (u, d)) us) ds).
Proof.
  intros Hu. induction 1 as [|d ds Hn Hd IH]; simpl; [constructor|].
  apply NoDup_app; auto.
  - clear -Hu. induction Hu as [|u us Hn _ IH]; simpl; constructor; auto.
    intros Hin. apply in_map_iff in Hin. destruct Hin as [x [[= ->] Hx]].
    contradiction.
  - intros [u d'] H1 H2. apply in_map_iff in H1. destruct H1 as [x [[= <- <-] _]].
    apply in_flat_map in H2. destruct H2 as [d' [Hd' Hx]].
    apply in_map_iff in Hx. destruct Hx as [y [[= _ ->] _]]. contradiction.
Qed.

Lemma melted_keys (rs : list Wide.row) (cols : list string) :
  map key (flat_map (fun col => map (fun r => long_row r col (polars_date col)) rs)
                    cols)
  = flat_map (fun d => map (fun u => (u, d)) (map unique_id_of rs))
             (map polars_date cols).
Proof.
  induction cols as [|c cols IH]; simpl; auto.
  rewrite map_app, IH, !map_map. reflexivity.
Qed.

Lemma merge_raw (name : string) (w : world) :
  raw (after (merge_new_data_with_preprocessed_data name) w) = raw w.
Proof.
  unfold after. pose proof (merge_run name w) as R.
  destruct (merge_new_data_with_preprocessed_data name w) as [res w'].
  simpl in *. now inversion R.
Qed.

Lemma merge_unique_keys (name : string) (w : world) :
  reads_like_strptime polars_date ->
  (forall df, raw w name = Some df -> one_row_per_key df /\ distinct_dates df) ->
  unique_keys (persisted w) ->
  unique_keys (persisted (after (merge_new_data_with_preprocessed_data name) w)).
Proof.
  intros Hag Hok Hu. unfold after. pose proof (merge_run name w) as R.
  destruct (merge_new_data_with_preprocessed_data name w) as [res w'].
  simpl in *.
  inversion R as [e | df old dates Hraw Hreq Hpq Hd Hn
                    | df old dates casted Hraw Hreq Hpq Hd Hn Hp]; subst; auto.
  unfold persisted in *. simpl. rewrite Hpq in Hu.
  destruct (Hok df Hraw) as [Hkey Hdates].
  unfold unique_keys.
  apply (Permutation_NoDup (Permutation_map key (Permutation_sym (sort_perm _)))).
  rewrite map_app. apply NoDup_app; auto.
  - apply unique_keys_filter. unfold unique_keys.
    apply reshaped_ok in Hp. destruct Hp as [_ Hc].
    rewrite (cast_keys _ _ Hc).
    apply (Permutation_NoDup (Permutation_map key (Permutation_sym (sort_perm _)))).
    unfold melted. rewrite melted_keys. apply NoDup_pairs; auto.
    pose proof (parsed_columns_are_dates df dates Hd) as Hcols.
    rewrite (value_columns_dates df Hcols).
    now rewrite (agree_on_dates _ Hag Hcols).
  - intros k H1 H2.
    apply in_map_iff in H1. destruct H1 as [r1 [<- Hr1]].
    apply in_map_iff in H2. destruct H2 as [r2 [E Hr2]].
    apply filter_In in Hr2. destruct Hr2 as [_ Hin]. unfold is_in in Hin.
    destruct (Long.ds r2) as [d|] eqn:Ed; try discriminate.
    apply existsb_date, not_overlapping_In in Hin. destruct Hin as [_ Hin].
    apply Hin. unfold key in E. injection E as _ E. rewrite Ed in E.
    rewrite E. now apply in_map.
Qed.

(** C2 - uniqueness, as the code keeps it.  Let every snapshot have at most
    one row per derived entity key (the string Client/Warehouse/Product, null
    when a part is null) and date columns that are read as pairwise distinct
    dates.  Then, starting from a persisted table without duplicate
    (entity_key, date) pairs, the table has none after any sequence of
    merges.  (The date cast of line 65 is taken to read a column name that
    [strptime] reads as the same date.) *)
Theorem uniqueness_preserved (names : list string) (w : world) :
  reads_like_strptime polars_date ->
  (forall name df, raw w name = Some df ->
                   one_row_per_key df /\ distinct_dates df) ->
  unique_keys (persisted w) ->
  unique_keys (persisted (merges names w)).
Proof.
  intros Hag. revert w. induction names as [|name names IH]; intros w Hok Hu.
  - exact Hu.
  - cbn [merges]. apply IH.
    + intros n df. rewrite merge_raw. apply Hok.
    + apply merge_unique_keys; [exact Hag| |exact Hu]. intros df. apply Hok.
Qed.

(** ** The dates of the table after a write (C5, C10) *)

Lemma merged_table_dates_incl (casted old : Long.frame)
    (dates : list date) (od : option date) :
  In od (map Long.ds (merged_table casted old dates)) ->
  In od (map Long.ds old) \/ exists d, od = Some d /\ In d dates.
Proof.
  unfold merged_table. intros H. apply in_map_iff in H.
  destruct H as [r [<- Hr]]. apply sort_In, in_app_or in Hr.
  destruct Hr as [Hr|Hr].
  - left. now apply in_map.
  - right. apply filter_In in Hr. destruct Hr as [_ Hin]. unfold is_in in Hin.
    destruct (Long.ds r) as [d|]; try discriminate. exists d. split; auto.
    apply existsb_date, not_overlapping_In in Hin. tauto.
Qed.

Lemma merged_table_keeps_old (casted old : Long.frame) (dates : list date) :
  incl (map Long.ds old) (map Long.ds (merged_table casted old dates)).
Proof.
  intros od H. apply in_map_iff in H. destruct H as [r [<- Hr]].
  apply in_map. unfold merged_table. apply sort_In, in_or_app. now left.
Qed.

(** With at least one snapshot row, every parsed date is held after the
    write. *)
Lemma merged_table_holds_dates (df : Wide.frame) (casted old : Long.frame)
    (dates : list date) (d : date) :
  reads_like_strptime polars_date ->
  reshaped df = Ok casted ->
  Wide.rows df <> [] ->
  traverse parse_column (dates_from_new_file df) = Ok dates ->
  In d dates ->
  In (Some d) (map Long.ds (merged_table casted old dates)).
Proof.
  intros Hag Hp Hrows Hd Hin.
  destruct (in_dec option_date_eq_dec (Some d) (map Long.ds old)) as [Ho|Ho].
  - now apply merged_table_keeps_old.
  - destruct (Wide.rows df) as [|r0 rs] eqn:Er; [congruence|].
    pose proof (parsed_dates _ _ Hd) as Hmap.
    assert (Hc : exists col, In col (dates_from_new_file df)
                             /\ strptime col = Some d).
    { assert (In (Some d) (map strptime (dates_from_new_file df)))
        by (rewrite Hmap; now apply in_map).
      apply in_map_iff in H. destruct H as [col [E Hcol]]. eauto. }
    destruct Hc as [col [Hcol Hs]].
    rewrite <- (value_columns_dates df (parsed_columns_are_dates df dates Hd))
      in Hcol.
    destruct (reshaped_has df casted col r0 Hp Hcol) as [x [Hx [Hds _]]].
    { rewrite Er. now left. }
    rewrite (Hag col d Hs) in Hds.
    apply in_map_iff. exists x. split; auto.
    unfold merged_table. apply sort_In, in_or_app. right.
    apply filter_In. split; auto.
    unfold is_in. rewrite Hds. apply existsb_date, not_overlapping_In. auto.
Qed.

(** C5 - idempotence, as the code has it.  Take a snapshot with at least
    one row.  After a first merge of it that returned, a second merge of
    the same file is the overlap short-circuit: it returns, prints the
    all-dates-overlapping notice, writes nothing, and the persisted table is
    the one the first merge left.  (The date cast of line 65 is taken to
    read a column name that [strptime] reads as the same date.) *)
Theorem second_merge_is_no_op (name : string) (w : world) (df : Wide.frame) :
  reads_like_strptime polars_date ->
  raw w name = Some df ->
  Wide.rows df <> [] ->
  fst (merge_new_data_with_preprocessed_data name w) = Ok tt ->
  let w1 := after (merge_new_data_with_preprocessed_data name) w in
  merge_new_data_with_preprocessed_data name w1
    = (Ok tt, printed all_overlapping_msg w1) /\
  parquet (after (merge_new_data_with_preprocessed_data name) w1) = parquet w1 /\
  writes (after (merge_new_data_with_preprocessed_data name) w1) = writes w1.
Proof.
  intros Hag Hraw Hrows Hok w1.
  assert (Hrun : merge_new_data_with_preprocessed_data name w1
                 = (Ok tt, printed all_overlapping_msg w1)).
  { subst w1. unfold after. pose proof (merge_run name w) as R.
    destruct (merge_new_data_with_preprocessed_data name w) as [res w'].
    simpl in *. subst res.
    inversion R as [e | df' old dates Hraw' Hreq Hpq Hd Hn
                      | df' old dates casted Hraw' Hreq Hpq Hd Hn Hp]; subst.
    - eapply merge_short_circuit; eauto.
    - rewrite Hraw in Hraw'. injection Hraw' as <-.
      eapply merge_short_circuit; simpl; eauto.
      apply not_overlapping_nil. intros d Hin.
      now apply (merged_table_holds_dates df casted old dates d). }
  unfold after. rewrite Hrun. auto.
Qed.

(** C10 - growth of the date set, as the code has it.  No merge, writing or
    not, removes a date from the persisted table.  After a merge that
    writes a snapshot with at least one row, the dates of the persisted
    table are those it held before together with the dates the snapshot's
    date columns are read as.  (The date cast of line 65 is taken to read
    a column name that [strptime] reads as the same date.) *)
Theorem date_set_growth (name : string) (w : world) (old : Long.frame) :
  reads_like_strptime polars_date ->
  parquet w = Some old ->
  exists new,
    parquet (after (merge_new_data_with_preprocessed_data name) w) = Some new /\
    incl (map Long.ds old) (map Long.ds new) /\
    (writes (after (merge_new_data_with_preprocessed_data name) w) <> writes w ->
     forall df, raw w name = Some df -> Wide.rows df <> [] ->
       forall od,
         In od (map Long.ds new) <->
         In od (map Long.ds old)
         \/ In od (map strptime (dates_from_new_file df))).
Proof.
  intros Hag Hold. unfold after. pose proof (merge_run name w) as R.
  destruct (merge_new_data_with_preprocessed_data name w) as [res w'].
  simpl in *.
  inversion R as [e | df old' dates Hraw Hreq Hpq Hd Hn
                    | df old' dates casted Hraw Hreq Hpq Hd Hn Hp]; subst.
  - exists old. split; auto. split; [apply incl_refl|]. congruence.
  - exists old. split; auto. split; [apply incl_refl|]. simpl. congruence.
  - rewrite Hold in Hpq. injection Hpq as <-.
    exists (merged_table casted old dates). split; [reflexivity|].
    split; [apply merged_table_keeps_old|].
    intros _ df' Hraw' Hrows od. rewrite Hraw in Hraw'. injection Hraw' as <-.
    rewrite (parsed_dates _ _ Hd). split.
    + intros H. apply merged_table_dates_incl in H.
      destruct H as [H|[d [-> H]]]; auto. right. now apply in_map.
    + intros [H|H].
      * now apply merged_table_keeps_old.
      * apply in_map_iff in H. destruct H as [d [<- H]].
        now apply (merged_table_holds_dates df casted old dates d).
Qed.

(** ** A failing file in a batch (C7) *)

Lemma for_each_app {A} (l1 l2 : list A) (body : A -> M unit) (w : world) :
  for_each (l1 ++ l2) body w =
  match for_each l1 body w with
  | (Ok _, w1) => for_each l2 body w1
  | (Raise e, w1) => (Raise e, w1)
  end.
Proof.
  revert w. induction l1 as [|a l1 IH]; intros w; simpl.
  - reflexivity.
  - unfold bind. destruct (body a w) as [[u|e] w1]; auto.
Qed.

(** C7 - a fatal condition in a batch, as the code has it.  The loop of
    [process_files] has no handler: when the merge of a selected file
    raises, [process_files] raises the same exception at once.  The files
    listed before it have been processed and stay merged; the world is the
    one they left, with the failing file's name printed and nothing else:
    no file listed after it is printed, read or merged. *)
Theorem failure_aborts_run (file_name : string) (w w1 : world)
    (pre post : list string) (file : string) (e : exn) :
  listdir w = pre ++ file :: post ->
  for_each pre (visit file_name) w = (Ok tt, w1) ->
  startswith file file_name && endswith file ".csv" = true ->
  fst (merge_new_data_with_preprocessed_data file (printed file w1)) = Raise e ->
  process_files file_name w = (Raise e, printed file w1).
Proof.
  intros Hls Hpre Hsel Hfail.
  assert (Hm : merge_new_data_with_preprocessed_data file (printed file w1)
               = (Raise e, printed file w1)).
  { destruct (merge_new_data_with_preprocessed_data file (printed file w1))
      as [res w2] eqn:E. simpl in Hfail. subst res.
    now rewrite (merge_raise_unchanged _ _ _ _ E). }
  unfold process_files, bind at 1, os_listdir. rewrite Hls.
  unfold bind at 1. rewrite for_each_app, Hpre. cbn [for_each].
  unfold bind at 1. unfold visit at 1. rewrite Hsel.
  unfold bind at 1, print at 1. fold (printed file w1). now rewrite Hm.
Qed.

(** ** The reshaper's output (C8) *)

(** C8 - output of the reshaper, as the code has it.  For a wide table
    with the columns Client, Warehouse and Product whose other columns are
    all named by dates, [prepare_raw_csv] returns a long table with one row
    per input row and date column - the row count is the product, and the
    row of every input row under every date column is there - in which no
    [ds] is null.  The entity key of an output row is null exactly when one
    of its Client, Warehouse, Product is null.  (The date cast of line 65
    is taken to read a column name that [strptime] reads as the same
    date.) *)
Theorem reshaper_output (df : Wide.frame) :
  reads_like_strptime polars_date ->
  (forall c, In c original_cat_cols -> In c (Wide.columns df)) ->
  (forall c, In c (dates_from_new_file df) -> strptime c <> None) ->
  exists long,
    prepare_raw_csv df = Ok long /\
    List.length long
      = List.length (Wide.rows df) * List.length (dates_from_new_file df) /\
    (forall r col, In r (Wide.rows df) -> In col (dates_from_new_file df) ->
                   In (long_row r col (strptime col)) long) /\
    (forall x, In x long -> Long.ds x <> None) /\
    (forall x, In x long ->
       (Long.unique_id x = None <->
        Long.Client x = None \/ Long.Warehouse x = None \/ Long.Product x = None)).
Proof.
  intros Hag Hid Hdates.
  pose proof (value_columns_dates df Hdates) as Hv.
  assert (Hsame : forall c, In c (dates_from_new_file df) ->
                            polars_date c = strptime c).
  { intros c Hc. specialize (Hdates c Hc).
    destruct (strptime c) as [d|] eqn:E; [now apply Hag | congruence]. }
  exists (sort (melted df)). split; [|split; [|split; [|split]]].
  - apply prepare_raw_csv_total; auto. rewrite Hv. intros c Hc.
    rewrite (Hsame c Hc). now apply Hdates.
  - rewrite (Permutation_length (sort_perm _)), melted_length, Hv. reflexivity.
  - intros r col Hr Hc. apply sort_In, melted_In. exists col, r.
    rewrite Hv, (Hsame col Hc). auto.
  - intros x Hx. apply sort_In, melted_In in Hx.
    destruct Hx as [col [r [Hc [_ ->]]]]. simpl. rewrite Hv in Hc.
    rewrite (Hsame col Hc). now apply Hdates.
  - intros x Hx. apply sort_In, melted_In in Hx.
    destruct Hx as [col [r [_ [_ ->]]]]. simpl. unfold unique_id_of. simpl.
    destruct (Wide.Client r), (Wide.Warehouse r), (Wide.Product r); simpl;
      split; try discriminate; auto; intros [H|[H|H]]; discriminate.
Qed.

(** * Further properties of the three methods *)

(** ** When a merge returns, and what it raises *)

Lemma readable_true (df : Wide.frame) :
  readable df = true <->
  require_columns original_cat_cols df = Ok tt /\
  exists dates, traverse parse_column (dates_from_new_file df) = Ok dates.
Proof.
  unfold readable.
  destruct (require_columns original_cat_cols df) as [[]|e];
    destruct (traverse parse_column (dates_from_new_file df)) as [dates|e'];
    split; try discriminate; eauto.
  - intros [_ [dates H]]. discriminate.
  - intros [H _]. discriminate.
  - intros [H _]. discriminate.
Qed.

(** With a date cast that reads what [strptime] reads, the reshaper
    cannot raise inside a merge: line 95 has read every column name before
    line 108 casts them. *)
Lemma readable_prepare (df : Wide.frame) :
  reads_like_strptime polars_date ->
  readable df = true -> prepare_raw_csv df = Ok (sort (melted df)).
Proof.
  intros Hag H. apply readable_true in H. destruct H as [Hreq [dates Hd]].
  pose proof (parsed_columns_are_dates df dates Hd) as Hcols.
  apply prepare_raw_csv_total.
  - now apply require_columns_ok.
  - rewrite (value_columns_dates df Hcols). intros c Hc.
    specialize (Hcols c Hc). destruct (strptime c) as [d|] eqn:E; [|congruence].
    now rewrite (Hag c d E).
Qed.

(** The merge of a snapshot whose columns are in order, in full. *)
Lemma merge_readable (name : string) (w : world) (df : Wide.frame)
    (old : Long.frame) (dates : list date) :
  raw w name = Some df ->
  require_columns original_cat_cols df = Ok tt ->
  parquet w = Some old ->
  traverse parse_column (dates_from_new_file df) = Ok dates ->
  merge_new_data_with_preprocessed_data name w =
  match dates_that_are_not_overlapping old dates with
  | [] => (Ok tt, printed all_overlapping_msg w)
  | _ :: _ =>
      match reshaped df with
      | Ok casted =>
          (Ok tt, printed (merged_msg name)
                          (written (merged_table casted old dates) w))
      | Raise e => (Raise e, w)
      end
  end.
Proof.
  intros Hraw Hreq Hpq Hd.
  unfold merge_new_data_with_preprocessed_data, bind, read_csv, read_parquet, lift.
  rewrite Hraw, Hreq, Hpq, Hd.
  destruct (dates_that_are_not_overlapping old dates) as [|d novel] eqn:Hn; auto.
  rewrite new_df_processed_reshaped.
  destruct (reshaped df) as [casted|e]; simpl; auto.
  unfold merged_table. rewrite Hn. reflexivity.
Qed.

(** The cast of [y] goes through exactly when every cell under a date
    column casts. *)
Lemma reshaped_returns (df : Wide.frame) :
  reads_like_strptime polars_date ->
  readable df = true ->
  (exists casted, reshaped df = Ok casted) <->
  (forall r col, In r (Wide.rows df) -> In col (dates_from_new_file df) ->
                 exists v, cast_value (Wide.cell r col) = Ok v).
Proof.
  intros Hag Hr. pose proof (readable_prepare df Hag Hr) as Hp.
  apply readable_true in Hr. destruct Hr as [_ [dates Hd]].
  pose proof (value_columns_dates df (parsed_columns_are_dates df dates Hd)) as Hv.
  unfold reshaped. rewrite Hp. cbn [result_bind]. split.
  - intros [casted Hc] r col Hin Hcol.
    destruct (traverse_In _ _ _ Hc) as [Forth _].
    destruct (Forth (long_row r col (polars_date col))) as [x [_ E]].
    { apply sort_In, melted_In. exists col, r. rewrite Hv. auto. }
    apply cast_y_fields in E. simpl in E. destruct E as [E _]. eauto.
  - intros H. apply traverse_total. intros x Hx.
    apply sort_In, melted_In in Hx. destruct Hx as [col [r [Hcol [Hin ->]]]].
    rewrite Hv in Hcol. destruct (H r col Hin Hcol) as [v Hv'].
    unfold cast_y. simpl. rewrite Hv'. simpl. eauto.
Qed.

(** X1 - when a merge returns.  With a date cast that reads what
    [strptime] reads and ASCII column names, a merge returns (rather than
    raises) exactly when the raw file exists, holds the three identifier
    columns, every other column of it is named by a date, the persisted
    table exists and - in case the snapshot brings a date the table does
    not hold - every observation cell under a date column casts to
    Float64.  A cell that is no number makes the merge raise only when
    there is a date to add. *)
Theorem merge_returns_iff (name : string) (w : world) :
  reads_like_strptime polars_date ->
  (forall df, raw w name = Some df -> ascii_names df) ->
  fst (merge_new_data_with_preprocessed_data name w) = Ok tt <->
  exists df old dates,
    raw w name = Some df /\
    require_columns original_cat_cols df = Ok tt /\
    parquet w = Some old /\
    traverse parse_column (dates_from_new_file df) = Ok dates /\
    (dates_that_are_not_overlapping old dates <> [] ->
     forall r col, In r (Wide.rows df) -> In col (dates_from_new_file df) ->
                   exists v, cast_value (Wide.cell r col) = Ok v).
Proof.
  intros Hag _. split.
  - intros H. pose proof (merge_run name w) as R. rewrite H in R.
    inversion R as [e | df old dates Hraw Hreq Hpq Hd Hn
                      | df old dates casted Hraw Hreq Hpq Hd Hn Hp];
      exists df, old, dates; repeat split; auto.
    + congruence.
    + intros _. apply reshaped_returns; eauto. apply readable_true. eauto.
  - intros [df [old [dates [Hraw [Hreq [Hpq [Hd Hcells]]]]]]].
    rewrite (merge_readable name w df old dates) by assumption.
    destruct (dates_that_are_not_overlapping old dates) as [|d novel] eqn:Hn;
      auto.
    assert (Hc : exists casted, reshaped df = Ok casted).
    { apply reshaped_returns; auto.
      - apply readable_true. eauto.
      - apply Hcells. discriminate. }
    destruct Hc as [casted ->]. reflexivity.
Qed.

(** X2 - the column a failed merge reports.  With the raw file, its
    identifier columns and the persisted table in place, the merge raises
    the [ValueError] of the first column, in header order, that is neither
    an identifier nor named by a date - and changes nothing. *)
Theorem first_bad_column_reported (name : string) (w : world)
    (df : Wide.frame) (pre post : list string) (bad : string) :
  raw w name = Some df ->
  (forall c, In c original_cat_cols -> In c (Wide.columns df)) ->
  parquet w <> None ->
  dates_from_new_file df = pre ++ bad :: post ->
  (forall c, In c pre -> strptime c <> None) ->
  strptime bad = None ->
  merge_new_data_with_preprocessed_data name w = (Raise (ValueError bad), w).
Proof.
  intros Hraw Hid Hpq Hcols Hpre Hbad.
  apply require_columns_ok in Hid.
  destruct (parquet w) as [old|] eqn:Eo; [|congruence].
  assert (Ht : traverse parse_column (dates_from_new_file df)
               = Raise (ValueError bad)).
  { rewrite Hcols, traverse_app.
    destruct (traverse_total parse_column pre) as [ds Hds].
    - intros c Hc. specialize (Hpre c Hc). unfold parse_column.
      destruct (strptime c); [eauto | congruence].
    - rewrite Hds. simpl. unfold parse_column at 1. now rewrite Hbad. }
  unfold merge_new_data_with_preprocessed_data, bind, read_csv, read_parquet, lift.
  now rewrite Hraw, Hid, Eo, Ht.
Qed.

(** ** What a merge leaves behind *)

Lemma merge_keeps_store (name : string) (w : world) :
  parquet w = None ->
  after (merge_new_data_with_preprocessed_data name) w = w.
Proof.
  intros Hn. unfold after. pose proof (merge_run name w) as R.
  destruct (merge_new_data_with_preprocessed_data name w) as [res w'].
  simpl in *. inversion R; subst; auto; congruence.
Qed.

Lemma merge_step_adds (name : string) (w : world) :
  exists added,
    Permutation
      (persisted (after (merge_new_data_with_preprocessed_data name) w))
      (persisted w ++ added).
Proof.
  destruct (parquet w) as [old|] eqn:Eo.
  - destruct (merge_adds name w
                (after (merge_new_data_with_preprocessed_data name) w)
                (fst (merge_new_data_with_preprocessed_data name w)) old)
      as [new [added [Hnew [Hperm _]]]]; auto.
    { unfold after. now destruct (merge_new_data_with_preprocessed_data name w). }
    exists added. unfold persisted. now rewrite Hnew, Eo.
  - exists []. rewrite merge_keeps_store by assumption.
    now rewrite app_nil_r.
Qed.

(** X3 - no record is ever lost.  After any sequence of merges, whatever
    each of them did, the persisted table holds every record it held at
    the start, as often as before, next to the records added. *)
Theorem no_record_lost (names : list string) (w : world) :
  exists added,
    Permutation (persisted (merges names w)) (persisted w ++ added).
Proof.
  revert w. induction names as [|name names IH]; intros w.
  - exists []. now rewrite app_nil_r.
  - cbn [merges].
    destruct (IH (after (merge_new_data_with_preprocessed_data name) w))
      as [added2 H2].
    destruct (merge_step_adds name w) as [added1 H1].
    exists (added1 ++ added2). rewrite H2, H1. now rewrite app_assoc.
Qed.

(** X4 - one line and at most one write per merge.  A merge that returns
    has either printed the overlap notice and written nothing, or written
    the table once and printed the success notice naming the file; in both
    cases nothing else was printed. *)
Theorem merge_accounting (name : string) (w : world) :
  fst (merge_new_data_with_preprocessed_data name w) = Ok tt ->
  let w' := after (merge_new_data_with_preprocessed_data name) w in
  (writes w' = writes w /\ parquet w' = parquet w
   /\ stdout w' = stdout w ++ [all_overlapping_msg])
  \/ (writes w' = S (writes w)
      /\ stdout w' = stdout w ++ [merged_msg name]).
Proof.
  intros H. unfold after. pose proof (merge_run name w) as R.
  destruct (merge_new_data_with_preprocessed_data name w) as [res w'].
  simpl in *. subst res. inversion R; subst; simpl; auto.
Qed.

(** ** What a merge adds *)

Lemma fresh_spec (old : Long.frame) (r : Long.record) :
  fresh old r = true <->
  exists d, Long.ds r = Some d /\ ~ In (Some d) (map Long.ds old).
Proof.
  unfold fresh. destruct (Long.ds r) as [d|].
  - rewrite negb_true_iff, <- not_true_iff_false, existsb_option_date. split.
    + intros H. exists d. auto.
    + intros [d' [[= <-] H]]. exact H.
  - split; [discriminate | intros [d [H _]]; discriminate].
Qed.

(** On the records of the reshaped snapshot the filter of line 110 keeps
    those with a fresh date. *)
Lemma is_in_fresh (df : Wide.frame) (casted old : Long.frame)
    (dates : list date) (x : Long.record) :
  reads_like_strptime polars_date ->
  traverse parse_column (dates_from_new_file df) = Ok dates ->
  reshaped df = Ok casted ->
  In x casted ->
  is_in (dates_that_are_not_overlapping old dates) x = fresh old x.
Proof.
  intros Hag Hd Hp Hx.
  destruct (reshaped_In df casted x Hp Hx) as [col [r [Hc [_ [Hds _]]]]].
  pose proof (parsed_columns_are_dates df dates Hd) as Hcols.
  rewrite (value_columns_dates df Hcols) in Hc.
  apply eq_true_iff_eq. rewrite fresh_spec. unfold is_in.
  destruct (strptime col) as [d|] eqn:Es; [|now apply Hcols in Hc].
  rewrite Hds, (Hag col d Es).
  rewrite existsb_date, not_overlapping_In. split.
  - intros [_ H]. eauto.
  - intros [d' [[= <-] H]]. split; auto.
    apply parsed_dates in Hd. apply (in_map strptime) in Hc.
    rewrite Hd, Es in Hc. apply in_map_iff in Hc.
    destruct Hc as [y [[= ->] Hy]]. exact Hy.
Qed.

Lemma merged_table_fresh (df : Wide.frame) (casted old : Long.frame)
    (dates : list date) :
  reads_like_strptime polars_date ->
  traverse parse_column (dates_from_new_file df) = Ok dates ->
  reshaped df = Ok casted ->
  Permutation (merged_table casted old dates) (old ++ filter (fresh old) casted).
Proof.
  intros Hag Hd Hp. unfold merged_table.
  rewrite sort_perm. apply Permutation_app_head.
  rewrite (filter_ext_in _ (fresh old)); auto.
  intros r Hr. now apply (is_in_fresh df casted old dates).
Qed.

Lemma merge_unreadable (name : string) (w : world) :
  (forall df, raw w name = Some df -> readable df = false) ->
  after (merge_new_data_with_preprocessed_data name) w = w.
Proof.
  intros H. unfold after. pose proof (merge_run name w) as R.
  destruct (merge_new_data_with_preprocessed_data name w) as [res w'].
  simpl in *.
  inversion R as [e | df old dates Hraw Hreq Hpq Hd Hn
                    | df old dates casted Hraw Hreq Hpq Hd Hn Hp]; subst; auto;
    exfalso; specialize (H df Hraw);
    assert (readable df = true) by (apply readable_true; eauto); congruence.
Qed.

(** When the table holds every date of the snapshot, no record of the
    snapshot is fresh. *)
Lemma nothing_fresh (df : Wide.frame) (casted old : Long.frame)
    (dates : list date) :
  reads_like_strptime polars_date ->
  traverse parse_column (dates_from_new_file df) = Ok dates ->
  reshaped df = Ok casted ->
  dates_that_are_not_overlapping old dates = [] ->
  filter (fresh old) casted = [].
Proof.
  intros Hag Hd Hp Hn. apply filter_none. intros x Hx.
  rewrite <- (is_in_fresh df casted old dates) by assumption.
  rewrite Hn. unfold is_in. now destruct (Long.ds x).
Qed.

Lemma merge_contribution (name : string) (w : world) (old : Long.frame) :
  reads_like_strptime polars_date ->
  parquet w = Some old ->
  exists new,
    parquet (after (merge_new_data_with_preprocessed_data name) w) = Some new /\
    Permutation new (old ++ contribution w name old).
Proof.
  intros Hag Hpq. unfold contribution.
  destruct (raw w name) as [df|] eqn:Hraw;
    [destruct (readable df) eqn:Hr|].
  - apply readable_true in Hr. destruct Hr as [Hreq [dates Hd]].
    unfold after. rewrite (merge_readable name w df old dates) by assumption.
    destruct (dates_that_are_not_overlapping old dates) as [|d novel] eqn:Hn.
    + exists old. split; auto.
      destruct (reshaped df) as [casted|e] eqn:Hp.
      * now rewrite (nothing_fresh df casted old dates), app_nil_r.
      * now rewrite app_nil_r.
    + destruct (reshaped df) as [casted|e] eqn:Hp.
      * exists (merged_table casted old dates). split; auto.
        now apply (merged_table_fresh df).
      * exists old. split; auto. now rewrite app_nil_r.
  - rewrite merge_unreadable.
    + exists old. now rewrite app_nil_r.
    + intros df' E. rewrite Hraw in E. now injection E as <-.
  - rewrite merge_unreadable.
    + exists old. now rewrite app_nil_r.
    + intros df' E. congruence.
Qed.

(** The dates of the records of a table, counted through a test on the
    date alone. *)
Lemma fresh_count (old : Long.frame) (l : Long.frame) :
  List.length (filter (fresh old) l)
  = List.length
      (filter (fun od : option date =>
                 match od with
                 | Some d =>
                     negb (existsb (option_date_eqb (Some d)) (map Long.ds old))
                 | None => false
                 end)
              (map Long.ds l)).
Proof.
  induction l as [|x l IH]; simpl; auto. unfold fresh at 1.
  destruct (Long.ds x) as [d|]; [destruct (negb _)|]; simpl; auto.
Qed.

Lemma melted_dates (rs : list Wide.row) (cols : list string) :
  map Long.ds
      (flat_map (fun col => map (fun r => long_row r col (polars_date col)) rs)
                cols)
  = flat_map (fun col => map (fun _ => polars_date col) rs) cols.
Proof.
  induction cols as [|c cols IH]; simpl; auto.
  now rewrite map_app, IH, map_map.
Qed.

Lemma column_count (test : option date -> bool) (rs : list Wide.row)
    (cols : list string) :
  List.length
    (filter test (flat_map (fun col => map (fun _ => polars_date col) rs) cols))
  = List.length rs
    * List.length (filter (fun col => test (polars_date col)) cols).
Proof.
  induction cols as [|c cols IH]; cbn [flat_map filter].
  - now rewrite Nat.mul_0_r.
  - rewrite filter_app, length_app, IH.
    assert (E : filter test (map (fun _ : Wide.row => polars_date c) rs)
                = if test (polars_date c)
                  then map (fun _ => polars_date c) rs else []).
    { clear IH. induction rs as [|r rs IHr]; cbn [map filter].
      - now destruct (test (polars_date c)).
      - rewrite IHr. now destruct (test (polars_date c)). }
    rewrite E. destruct (test (polars_date c)); cbn [List.length];
      rewrite ?length_map; lia.
Qed.

Lemma fresh_rows_length (df : Wide.frame) (casted old : Long.frame) :
  reads_like_strptime polars_date ->
  (forall c, In c (dates_from_new_file df) -> strptime c <> None) ->
  reshaped df = Ok casted ->
  List.length (filter (fresh old) casted)
  = List.length (Wide.rows df) * List.length (novel_columns df old).
Proof.
  intros Hag Hcols Hp. apply reshaped_ok in Hp. destruct Hp as [_ Hc].
  rewrite fresh_count, (cast_dates _ _ Hc).
  rewrite (Permutation_length
             (filter_perm _ _ _ (Permutation_map Long.ds (sort_perm (melted df))))).
  unfold melted. rewrite melted_dates, column_count.
  rewrite (value_columns_dates df Hcols). unfold novel_columns. f_equal. f_equal.
  apply filter_ext_in. intros c Hc'. specialize (Hcols c Hc').
  destruct (strptime c) as [d|] eqn:E; [|congruence].
  now rewrite (Hag c d E).
Qed.

Lemma novel_columns_nil (df : Wide.frame) (old : Long.frame)
    (dates : list date) :
  traverse parse_column (dates_from_new_file df) = Ok dates ->
  dates_that_are_not_overlapping old dates = [] ->
  novel_columns df old = [].
Proof.
  intros Hd Hn. unfold novel_columns. apply filter_none. intros c Hc.
  destruct (strptime c) as [d|] eqn:E; auto.
  apply negb_false_iff, existsb_option_date.
  apply (proj1 (not_overlapping_nil old dates) Hn).
  apply parsed_dates in Hd. apply (in_map strptime) in Hc.
  rewrite Hd, E in Hc. apply in_map_iff in Hc.
  destruct Hc as [y [[= ->] Hy]]. exact Hy.
Qed.

(** X5 - how many records a merge adds.  After a merge that returned, the
    persisted table has as many records as before plus one per snapshot
    row and date column whose date the table did not hold.  (The date cast
    of line 65 is taken to read a column name that [strptime] reads as the
    same date.) *)
Theorem merge_row_count (name : string) (w : world) (df : Wide.frame)
    (old : Long.frame) :
  reads_like_strptime polars_date ->
  raw w name = Some df ->
  parquet w = Some old ->
  fst (merge_new_data_with_preprocessed_data name w) = Ok tt ->
  List.length (persisted (after (merge_new_data_with_preprocessed_data name) w))
  = List.length old
    + List.length (Wide.rows df) * List.length (novel_columns df old).
Proof.
  intros Hag Hraw Hpq Hok. unfold after.
  pose proof (merge_run name w) as R.
  destruct (merge_new_data_with_preprocessed_data name w) as [res w'].
  simpl in *. subst res.
  inversion R as [e | df' old' dates Hraw' Hreq Hpq' Hd Hn
                    | df' old' dates casted Hraw' Hreq Hpq' Hd Hn Hp]; subst;
    rewrite Hraw in Hraw'; injection Hraw' as <-;
    rewrite Hpq in Hpq'; injection Hpq' as <-.
  - unfold persisted. simpl. rewrite Hpq.
    rewrite (novel_columns_nil df old dates Hd Hn). simpl. lia.
  - unfold persisted. simpl.
    fold (merged_table casted old dates).
    rewrite (Permutation_length (merged_table_fresh df casted old dates Hag Hd Hp)).
    rewrite length_app, (fresh_rows_length df casted old Hag); auto.
    eapply parsed_columns_are_dates; eauto.
Qed.

(** ** Sortedness as an invariant *)

Lemma merge_sorted (name : string) (w : world) :
  Sorted key_le (persisted w) ->
  Sorted key_le (persisted (after (merge_new_data_with_preprocessed_data name) w)).
Proof.
  intros Hs. unfold after. pose proof (merge_run name w) as R.
  destruct (merge_new_data_with_preprocessed_data name w) as [res w'].
  simpl in *. inversion R; subst; auto.
  unfold persisted. simpl. apply sort_sorted.
Qed.

(** X6 - the order is kept by every sequence of merges.  Starting from a
    persisted table sorted by (unique_id, ds), the table is sorted after
    any sequence of merges, whether they wrote, found only known dates or
    raised. *)
Theorem sorted_invariant (names : list string) (w : world) :
  Sorted key_le (persisted w) ->
  Sorted key_le (persisted (merges names w)).
Proof.
  revert w. induction names as [|name names IH]; intros w Hs.
  - exact Hs.
  - cbn [merges]. apply IH. now apply merge_sorted.
Qed.

(** ** Merging two snapshots in either order *)

Lemma contribution_dates (w : world) (name : string) (old : Long.frame)
    (r : Long.record) :
  reads_like_strptime polars_date ->
  In r (contribution w name old) ->
  exists d, Long.ds r = Some d /\ In (Some d) (file_dates w name)
            /\ ~ In (Some d) (map Long.ds old).
Proof.
  intros Hag. unfold contribution, file_dates.
  destruct (raw w name) as [df|]; [|intros []].
  destruct (readable df) eqn:Hr; [|intros []].
  destruct (reshaped df) as [casted|e] eqn:Hp; [|intros []].
  apply readable_true in Hr. destruct Hr as [_ [dates Hd]].
  rewrite filter_In, fresh_spec.
  intros [Hm [d [Hds Hn]]]. exists d. split; auto. split; auto.
  destruct (reshaped_In df casted r Hp Hm) as [col [wr [Hc [_ [Hx _]]]]].
  pose proof (parsed_columns_are_dates df dates Hd) as Hcols.
  rewrite (value_columns_dates df Hcols) in Hc.
  specialize (Hcols col Hc). destruct (strptime col) as [d'|] eqn:E;
    [|congruence].
  rewrite Hds, (Hag col d' E) in Hx. rewrite Hx, <- E. now apply in_map.
Qed.

(** The contribution of a file depends on the table only through which
    of the file's dates the table holds. *)
Lemma contribution_ext (w : world) (name : string) (old1 old2 : Long.frame) :
  reads_like_strptime polars_date ->
  (forall d, In (Some d) (file_dates w name) ->
             (In (Some d) (map Long.ds old1) <-> In (Some d) (map Long.ds old2))) ->
  contribution w name old1 = contribution w name old2.
Proof.
  intros Hag. unfold contribution, file_dates.
  destruct (raw w name) as [df|]; auto.
  destruct (readable df) eqn:Hr; auto.
  destruct (reshaped df) as [casted|e] eqn:Hp; auto.
  apply readable_true in Hr. destruct Hr as [_ [dates Hd]].
  intros H. apply filter_ext_in. intros r Hm.
  destruct (reshaped_In df casted r Hp Hm) as [col [wr [Hc [_ [Hx _]]]]].
  pose proof (parsed_columns_are_dates df dates Hd) as Hcols.
  rewrite (value_columns_dates df Hcols) in Hc.
  pose proof (Hcols col Hc) as Hcol.
  destruct (strptime col) as [d'|] eqn:E; [|congruence].
  rewrite (Hag col d' E) in Hx.
  apply eq_true_iff_eq. rewrite !fresh_spec.
  assert (Hin : In (Some d') (map strptime (dates_from_new_file df)))
    by (rewrite <- E; now apply in_map).
  split; intros [d [Hds Hn]]; exists d; split; auto; intros Hi; apply Hn;
    rewrite Hx in Hds; injection Hds as <-; now apply (H d').
Qed.

Lemma contribution_raw (w w' : world) (name : string) (old : Long.frame) :
  raw w' = raw w -> contribution w' name old = contribution w name old.
Proof. unfold contribution. now intros ->. Qed.

Lemma two_merges (a b : string) (w : world) (old : Long.frame) :
  reads_like_strptime polars_date ->
  parquet w = Some old ->
  (forall d, In (Some d) (file_dates w a) -> ~ In (Some d) (file_dates w b)) ->
  Permutation (persisted (merges [a; b] w))
              (old ++ contribution w a old ++ contribution w b old).
Proof.
  intros Hag Hpq Hdis. cbn [merges].
  destruct (merge_contribution a w old Hag Hpq) as [t1 [Ht1 P1]].
  destruct (merge_contribution b _ t1 Hag Ht1) as [t2 [Ht2 P2]].
  unfold persisted. rewrite Ht2, P2.
  rewrite (contribution_raw w (after (merge_new_data_with_preprocessed_data a) w))
    by apply merge_raw.
  rewrite (contribution_ext w b t1 old Hag).
  - rewrite P1. now rewrite app_assoc.
  - intros d Hb. split; intros Hin.
    + apply (Permutation_in _ (Permutation_map Long.ds P1)) in Hin.
      rewrite map_app in Hin. apply in_app_or in Hin.
      destruct Hin as [Hin|Hin]; auto. exfalso.
      apply in_map_iff in Hin. destruct Hin as [r [Hds Hr]].
      apply (contribution_dates w a old r Hag) in Hr.
      destruct Hr as [d' [Hd' [Ha _]]].
      rewrite Hd' in Hds. injection Hds as ->. now apply (Hdis d).
    + apply (Permutation_in _ (Permutation_sym (Permutation_map Long.ds P1))).
      rewrite map_app. apply in_or_app. now left.
Qed.

(** Two sorted tables with the same records and no repeated key are the
    same table. *)
Lemma sorted_tables_equal (l1 l2 : Long.frame) :
  StronglySorted key_le l1 -> StronglySorted key_le l2 ->
  Permutation l1 l2 -> unique_keys l1 -> l1 = l2.
Proof.
  unfold unique_keys. revert l2.
  induction l1 as [|a t1 IH]; intros l2 S1 S2 P U.
  - apply Permutation_nil in P. now subst.
  - destruct l2 as [|b t2].
    { apply Permutation_sym, Permutation_nil in P. discriminate. }
    inversion S1 as [|? ? S1' F1]; subst.
    inversion S2 as [|? ? S2' F2]; subst.
    inversion U as [|? ? Hn U']; subst.
    assert (E : a = b).
    { assert (Ha : In a (b :: t2)) by (apply (Permutation_in _ P); now left).
      assert (Hb : In b (a :: t1))
        by (apply (Permutation_in _ (Permutation_sym P)); now left).
      destruct Ha as [Ha|Ha]; auto. destruct Hb as [Hb|Hb]; auto.
      exfalso. apply Hn.
      rewrite Forall_forall in F1, F2.
      specialize (F1 b Hb). specialize (F2 a Ha).
      unfold key_le, key_leb in F1, F2.
      assert (K : key_compare a b = Eq).
      { rewrite key_compare_lex in *.
        rewrite (cmp_antisym (key b) (key a)) in F2.
        destruct (lex_compare _ _ (key a) (key b)); auto; discriminate. }
      apply key_compare_eq in K. rewrite K. now apply in_map. }
    subst b. f_equal. apply IH; auto.
    now apply Permutation_cons_inv in P.
Qed.

(** X7 - snapshots with different dates can be merged in either order.
    When no date column of file [a] is read as the same date as a date
    column of file [b], merging [a] then [b] and merging [b] then [a]
    leave the same records in the persisted table.  If moreover the table
    was sorted at the start and the table after the two merges has no
    repeated (entity_key, date) pair, the two orders leave the same
    table, record for record.  (The date cast of line 65 is taken to read
    a column name that [strptime] reads as the same date.) *)
Theorem merges_commute (a b : string) (w : world) :
  reads_like_strptime polars_date ->
  (forall d, In (Some d) (file_dates w a) -> ~ In (Some d) (file_dates w b)) ->
  Permutation (persisted (merges [a; b] w)) (persisted (merges [b; a] w)) /\
  (Sorted key_le (persisted w) ->
   unique_keys (persisted (merges [a; b] w)) ->
   persisted (merges [a; b] w) = persisted (merges [b; a] w)).
Proof.
  intros Hag Hdis.
  assert (P : Permutation (persisted (merges [a; b] w))
                          (persisted (merges [b; a] w))).
  { destruct (parquet w) as [old|] eqn:Hpq.
    - rewrite (two_merges a b w old Hag Hpq Hdis).
      rewrite (two_merges b a w old Hag Hpq).
      + apply Permutation_app_head, Permutation_app_comm.
      + intros d Hb Ha. now apply (Hdis d).
    - cbn [merges]. now rewrite !merge_keeps_store by
        (rewrite ?merge_keeps_store; assumption). }
  split; auto. intros Hs Hu.
  apply sorted_tables_equal; auto;
    apply Sorted_StronglySorted;
    try (intros x y z; apply key_le_trans);
    cbn [merges]; now repeat apply merge_sorted.
Qed.

(** ** [process_files] and the sequence of merges it performs *)

Lemma same_files_refl (w : world) : same_files w w.
Proof. split; reflexivity. Qed.

(** A merge reads the raw files and the persisted table and nothing else
    of the world. *)
Lemma merge_same_files (name : string) (w1 w2 : world) :
  same_files w1 w2 ->
  fst (merge_new_data_with_preprocessed_data name w1)
  = fst (merge_new_data_with_preprocessed_data name w2) /\
  same_files (after (merge_new_data_with_preprocessed_data name) w1)
             (after (merge_new_data_with_preprocessed_data name) w2).
Proof.
  destruct w1 as [l1 r1 p1 n1 o1], w2 as [l2 r2 p2 n2 o2].
  unfold same_files. cbn [raw parquet]. intros [-> ->].
  unfold after, merge_new_data_with_preprocessed_data, bind, read_csv,
    read_parquet, lift.
  cbn [raw parquet].
  destruct (r2 name) as [df|]; [|now repeat split].
  destruct (require_columns original_cat_cols df) as [[]|e]; [|now repeat split].
  destruct p2 as [old|]; [|now repeat split].
  cbn [parquet].
  destruct (traverse parse_column (dates_from_new_file df)) as [dates|e];
    [|now repeat split].
  destruct (dates_that_are_not_overlapping old dates) as [|d novel].
  - now repeat split.
  - destruct (new_df_processed df (d :: novel)) as [x|e]; now repeat split.
Qed.

Lemma for_each_visit_merges (file_name : string) (l : list string)
    (w1 w2 w1' : world) :
  same_files w1 w2 ->
  for_each l (visit file_name) w1 = (Ok tt, w1') ->
  same_files w1' (merges (filter (selected file_name) l) w2).
Proof.
  revert w1 w2. induction l as [|file l IH]; intros w1 w2 Hs; cbn [for_each].
  - unfold ret. intros [= <-]. exact Hs.
  - unfold bind at 1. cbn [filter]. unfold visit at 1. fold (selected file_name file).
    destruct (selected file_name file).
    + unfold bind at 1, print at 1. fold (printed file w1).
      assert (Hs' : same_files (printed file w1) w2) by (destruct Hs; now split).
      destruct (merge_same_files file _ _ Hs') as [Hres Hafter].
      unfold after in Hafter.
      destruct (merge_new_data_with_preprocessed_data file (printed file w1))
        as [[[]|e] wa]; [|discriminate].
      cbn [merges]. apply IH. exact Hafter.
    + unfold ret. apply IH. exact Hs.
Qed.

Lemma process_files_unfold (file_name : string) (w : world) :
  process_files file_name w
  = match for_each (listdir w) (visit file_name) w with
    | (Ok _, w') => read_parquet w'
    | (Raise e, w') => (Raise e, w')
    end.
Proof. reflexivity. Qed.

(** X8 - what [process_files] returns.  When [process_files] returns, the
    table it returns is the persisted table, and that table is the one
    left by merging, in directory order, the entries whose name starts
    with [file_name] and ends with [.csv] - and no other entry. *)
Theorem process_files_returns (file_name : string) (w : world)
    (table : Long.frame) :
  fst (process_files file_name w) = Ok table ->
  parquet (after (process_files file_name) w) = Some table /\
  parquet (merges (filter (selected file_name) (listdir w)) w) = Some table.
Proof.
  rewrite process_files_unfold. unfold after. rewrite process_files_unfold.
  destruct (for_each (listdir w) (visit file_name) w) as [[[]|e] w'] eqn:E;
    [|discriminate].
  pose proof (for_each_visit_merges file_name (listdir w) w w w'
                (same_files_refl w) E) as [_ Hp].
  rewrite <- Hp. unfold read_parquet.
  destruct (parquet w') as [df|] eqn:Ep; [|discriminate].
  cbn [fst snd]. intros [= <-]. auto.
Qed.

Lemma for_each_none_selected (file_name : string) (l : list string) (w : world) :
  (forall file, In file l -> selected file_name file = false) ->
  for_each l (visit file_name) w = (Ok tt, w).
Proof.
  induction l as [|file l IH]; intros H; cbn [for_each].
  - reflexivity.
  - unfold bind, visit at 1. fold (selected file_name file).
    rewrite (H file) by now left. unfold ret.
    apply IH. intros f Hf. apply H. now right.
Qed.

(** X9 - a directory without matching entries.  When no entry of the
    directory starts with [file_name] and ends with [.csv],
    [process_files] reads no raw file, prints and writes nothing, and
    returns the persisted table as it is - or raises [FileNotFoundError]
    when there is none. *)
Theorem process_files_nothing_selected (file_name : string) (w : world) :
  (forall file, In file (listdir w) -> selected file_name file = false) ->
  process_files file_name w
  = match parquet w with
    | Some df => (Ok df, w)
    | None => (Raise (FileNotFoundError preprocessed_data_file_path), w)
    end.
Proof.
  intros H. rewrite process_files_unfold.
  rewrite (for_each_none_selected file_name (listdir w) w H).
  reflexivity.
Qed.

(** ** The test of line 38 *)

Lemma startswith_spec (s p : string) :
  startswith s p = true <-> exists q, s = (p ++ q)%string.
Proof.
  unfold startswith. revert s. induction p as [|c p IH]; intros s.
  - simpl. destruct s; split; eauto.
  - destruct s as [|c' s]; simpl.
    + split; [discriminate | intros [q H]; discriminate].
    + destruct (ascii_dec c c') as [<-|Hne].
      * rewrite IH. split; intros [q H]; exists q; congruence.
      * split; [discriminate | intros [q H]; congruence].
Qed.

Lemma substring_all (p : string) : String.substring 0 (String.length p) p = p.
Proof. induction p as [|c p IH]; simpl; congruence. Qed.

Lemma substring_suffix (q p : string) :
  String.substring (String.length q) (String.length p) (q ++ p)%string = p.
Proof.
  induction q as [|c q IH]; simpl; auto. apply substring_all.
Qed.

Lemma length_append (q p : string) :
  String.length (q ++ p)%string = String.length q + String.length p.
Proof. induction q as [|c q IH]; simpl; auto. Qed.

Lemma substring_split (s : string) (k : nat) :
  k <= String.length s ->
  s = (String.substring 0 k s
       ++ String.substring k (String.length s - k) s)%string.
Proof.
  revert k. induction s as [|c s IH]; intros k Hk.
  - destruct k; reflexivity.
  - destruct k as [|k]; simpl.
    + f_equal. symmetry. apply substring_all.
    + f_equal. apply IH. simpl in Hk. lia.
Qed.

Lemma endswith_spec (s p : string) :
  endswith s p = true <-> exists q, s = (q ++ p)%string.
Proof.
  unfold endswith. rewrite andb_true_iff, Nat.leb_le, String.eqb_eq. split.
  - intros [Hle E].
    exists (String.substring 0 (String.length s - String.length p) s).
    pose proof (substring_split s (String.length s - String.length p)) as H.
    replace (String.length s - (String.length s - String.length p))
      with (String.length p) in H by lia.
    rewrite E in H. apply H. lia.
  - intros [q ->]. rewrite length_append. split; [lia|].
    replace (String.length q + String.length p - String.length p)
      with (String.length q) by lia.
    apply substring_suffix.
Qed.

(** X10 - which directory entries are processed.  An entry is selected
    exactly when its name begins with [file_name] and ends with [.csv];
    the two may overlap, and nothing is asked of what lies between. *)
Theorem selected_spec (file_name file : string) :
  selected file_name file = true <->
  (exists rest, file = (file_name ++ rest)%string) /\
  (exists stem, file = (stem ++ ".csv")%string).
Proof.
  unfold selected. now rewrite andb_true_iff, startswith_spec, endswith_spec.
Qed.

(** ** More on the reshaper *)


Lemma unpivot_no_rows (df : Wide.frame) :
  Wide.rows df = [] -> unpivot df = [].
Proof.
  unfold unpivot. intros ->.
  induction (value_columns df) as [|c cols IH]; simpl; auto.
Qed.

(** X12 - a table without rows.  For a wide table with the three
    identifier columns and no row, [prepare_raw_csv] returns the empty
    table whatever its other columns are called: the strict cast of [ds]
    meets no value, so a column that is not named by a date goes
    unnoticed. *)
Theorem reshaper_no_rows (df : Wide.frame) :
  (forall c, In c original_cat_cols -> In c (Wide.columns df)) ->
  Wide.rows df = [] ->
  prepare_raw_csv df = Ok [].
Proof.
  intros Hid Hrows. unfold prepare_raw_csv.
  apply require_columns_ok in Hid. rewrite Hid. simpl.
  now rewrite unpivot_no_rows.
Qed.

Lemma cast_unpivot_fails (rs : list Wide.row) (cols : list string)
    (bad : string) :
  rs <> [] -> In bad cols -> polars_date bad = None ->
  exists v,
    traverse cast_ds
      (flat_map (fun col => map (fun r => long_row r col (Some col)) rs) cols)
    = Raise (InvalidOperationError v)
    /\ In v cols /\ polars_date v = None.
Proof.
  intros Hrs. induction cols as [|c cols IH]; intros Hin Hbad; [contradiction|].
  cbn [flat_map]. rewrite traverse_app, cast_column.
  destruct rs as [|r0 rs]; [congruence|].
  destruct (polars_date c) as [d|] eqn:Es.
  - destruct Hin as [->|Hin]; [congruence|].
    destruct (IH Hin Hbad) as [v [Hv [Hc Hs]]].
    exists v. cbn [result_bind]. rewrite Hv. split; auto. split; auto. now right.
  - exists c. split; auto. split; auto. now left.
Qed.

(** X13 - the reshaper on a column the date cast does not read.  For a
    wide table with the three identifier columns and at least one row, a
    value column whose name the strict cast of line 65 does not read as a
    date makes [prepare_raw_csv] raise the cast's [InvalidOperationError]
    on such a name. *)
Theorem reshaper_rejects_column (df : Wide.frame) (bad : string) :
  (forall c, In c original_cat_cols -> In c (Wide.columns df)) ->
  Wide.rows df <> [] ->
  In bad (value_columns df) ->
  polars_date bad = None ->
  exists v,
    prepare_raw_csv df = Raise (InvalidOperationError v) /\
    In v (value_columns df) /\ polars_date v = None.
Proof.
  intros Hid Hrows Hin Hbad. unfold prepare_raw_csv.
  apply require_columns_ok in Hid. rewrite Hid. simpl. unfold unpivot.
  destruct (cast_unpivot_fails (Wide.rows df) (value_columns df) bad
              Hrows Hin Hbad) as [v [Hv H]].
  exists v. now rewrite Hv.
Qed.

(** ** The entity key of line 60 *)

Lemma append_empty (s : string) : (s ++ "")%string = s.
Proof. induction s as [|c s IH]; simpl; congruence. Qed.

(** A string is cut in one way only at its first separator. *)
Lemma cut_at_slash (a a' b b' : string) :
  has_slash a = false -> has_slash a' = false ->
  (a ++ "/" ++ b)%string = (a' ++ "/" ++ b')%string ->
  a = a' /\ b = b'.
Proof.
  revert a'. induction a as [|c a IH]; intros [|c' a'] Ha Ha' E; simpl in *.
  - injection E as E. auto.
  - injection E as Ec E. subst c'. simpl in Ha'. discriminate.
  - injection E as Ec E. subst c. simpl in Ha. discriminate.
  - injection E as Ec E. subst c'.
    apply orb_false_iff in Ha. apply orb_false_iff in Ha'.
    destruct (IH a' (proj2 Ha) (proj2 Ha') E) as [-> ->]. auto.
Qed.

Lemma unique_id_of_some (r : Wide.row) (k : string) :
  unique_id_of r = Some k ->
  exists c w p,
    Wide.Client r = Some c /\ Wide.Warehouse r = Some w /\
    Wide.Product r = Some p /\ k = (c ++ "/" ++ w ++ "/" ++ p)%string.
Proof.
  unfold unique_id_of. simpl.
  destruct (Wide.Client r) as [c|], (Wide.Warehouse r) as [w|],
    (Wide.Product r) as [p|]; simpl; try discriminate.
  intros [= <-]. exists c, w, p. rewrite append_empty. auto.
Qed.

Lemma unique_id_of_inj (r1 r2 : Wide.row) :
  plain_identifiers r1 -> plain_identifiers r2 ->
  unique_id_of r1 = unique_id_of r2 -> triple r1 = triple r2.
Proof.
  intros [c1 [w1 [p1 [Hc1 [Hw1 [Hp1 [Sc1 Sw1]]]]]]]
         [c2 [w2 [p2 [Hc2 [Hw2 [Hp2 [Sc2 Sw2]]]]]]] E.
  unfold unique_id_of, triple in *.
  rewrite Hc1, Hw1, Hp1, Hc2, Hw2, Hp2 in *. simpl in E.
  rewrite !append_empty in E. injection E as E.
  apply cut_at_slash in E; auto. destruct E as [-> E].
  apply cut_at_slash in E; auto. destruct E as [-> ->]. reflexivity.
Qed.

(** X14 - when the entity key identifies the triple.  In a snapshot whose
    identifier cells are never null and whose Client and Warehouse never
    hold the separator [/], two rows with the same entity key have the same
    (Client, Warehouse, Product); so one row per triple is one row per
    entity key. *)
Theorem key_identifies_triple (df : Wide.frame) :
  (forall r, In r (Wide.rows df) -> plain_identifiers r) ->
  (forall r1 r2, In r1 (Wide.rows df) -> In r2 (Wide.rows df) ->
                 unique_id_of r1 = unique_id_of r2 -> triple r1 = triple r2) /\
  (one_row_per_triple df -> one_row_per_key df).
Proof.
  intros Hp. split.
  - intros r1 r2 H1 H2. apply unique_id_of_inj; auto.
  - unfold one_row_per_triple, one_row_per_key.
    induction (Wide.rows df) as [|r rs IH]; simpl; [constructor|].
    intros H. inversion H as [|? ? Hn Hd]; subst. constructor.
    + intros Hin. apply Hn. apply in_map_iff in Hin.
      destruct Hin as [r' [E Hr']]. apply in_map_iff. exists r'. split; auto.
      apply unique_id_of_inj; auto.
      * apply Hp. now right.
      * apply Hp. now left.
    + apply IH; auto. intros r' Hr'. apply Hp. now right.
Qed.

(** ** The first merge into an empty table *)

Lemma filter_all {A} (p : A -> bool) (l : list A) :
  (forall a, In a l -> p a = true) -> filter p l = l.
Proof.
  induction l as [|a l IH]; intros H; simpl; auto.
  rewrite (H a) by now left. f_equal. apply IH. intros; apply H; now right.
Qed.

(** X15 - bootstrapping.  When a merge into an existing, empty persisted
    table returns, the table it leaves has the records of the reshaped
    snapshot with their [y] cast to Float64, and is sorted; when no two of
    them share an (entity_key, date) pair, the persisted table is the very
    table [prepare_raw_csv] returns, cast.  (The date cast of line 65 is
    taken to read a column name that [strptime] reads as the same date.) *)
Theorem merge_into_empty (name : string) (w : world) (df : Wide.frame) :
  reads_like_strptime polars_date ->
  raw w name = Some df ->
  parquet w = Some [] ->
  fst (merge_new_data_with_preprocessed_data name w) = Ok tt ->
  let table := persisted (after (merge_new_data_with_preprocessed_data name) w) in
  exists long casted,
    prepare_raw_csv df = Ok long /\
    traverse cast_y long = Ok casted /\
    Permutation table casted /\ Sorted key_le table /\
    (unique_keys casted -> table = casted).
Proof.
  intros Hag Hraw Hpq Hok table.
  assert (S : Sorted key_le table).
  { subst table. apply merge_sorted. unfold persisted. rewrite Hpq. constructor. }
  subst table. unfold after in *.
  pose proof (merge_run name w) as R.
  destruct (merge_new_data_with_preprocessed_data name w) as [res w'].
  simpl in *. subst res.
  inversion R as [e | df' old' dates Hraw' Hreq Hpq' Hd Hn
                    | df' old' dates casted Hraw' Hreq Hpq' Hd Hn Hp]; subst;
    rewrite Hraw in Hraw'; injection Hraw' as <-;
    rewrite Hpq in Hpq'; injection Hpq' as <-.
  - (* no date to add: the snapshot has no date column *)
    assert (Hcols : dates_from_new_file df = []).
    { destruct (dates_from_new_file df) as [|c cols] eqn:E; auto. exfalso.
      pose proof (proj1 (not_overlapping_nil [] dates) Hn) as Hall.
      apply parsed_dates in Hd. destruct dates as [|d dates]; [discriminate|].
      apply (Hall d). now left. }
    assert (Hm : melted df = []).
    { unfold melted.
      rewrite (value_columns_dates df), Hcols; auto.
      rewrite Hcols. intros c []. }
    exists [], []. unfold persisted in *. simpl in *. rewrite Hpq in *.
    split.
    + rewrite readable_prepare, Hm; auto. apply readable_true. eauto.
    + repeat split; auto.
  - exists (sort (melted df)), casted.
    destruct (reshaped_ok df casted Hp) as [Hprep Hc].
    assert (P : Permutation (persisted
                   (printed (merged_msg name)
                      (written
                         (sort ([] ++ filter
                                  (is_in (dates_that_are_not_overlapping [] dates))
                                  casted)) w)))
                  casted).
    { unfold persisted. simpl. rewrite sort_perm.
      rewrite filter_all; auto. intros x Hx.
      rewrite (is_in_fresh df casted [] dates x Hag Hd Hp Hx).
      apply fresh_spec.
      destruct (reshaped_In df casted x Hp Hx) as [col [r [Hcol [_ [Hds _]]]]].
      pose proof (parsed_columns_are_dates df dates Hd) as Hcols.
      rewrite (value_columns_dates df Hcols) in Hcol.
      specialize (Hcols col Hcol).
      destruct (strptime col) as [d|] eqn:E; [|congruence].
      exists d. rewrite Hds, (Hag col d E). split; auto. }
    split; [exact Hprep|]. split; [exact Hc|]. split; [exact P|].
    split; [exact S|].
    intros U. symmetry. apply sorted_tables_equal; auto.
    + apply Sorted_StronglySorted; [intros x y z; apply key_le_trans|].
      apply (cast_sorted _ _ Hc), sort_sorted.
    + apply Sorted_StronglySorted; auto. intros x y z. apply key_le_trans.
    + now symmetry.
Qed.

(** ** The dates a merge stores *)

Lemma make_date_valid (y m d : nat) (x : date) :
  make_date y m d = Some x ->
  make_date (year x) (month x) (day x) = Some x.
Proof.
  unfold make_date at 1.
  destruct ((1 <=? y) && (y <=? 9999) && (1 <=? m) && (m <=? 12)
            && (1 <=? d) && (d <=? days_in_month y m)) eqn:E; [|discriminate].
  intros [= <-]. cbn [year month day]. unfold make_date. now rewrite E.
Qed.

Lemma strptime_valid (s : string) (x : date) :
  strptime s = Some x -> make_date (year x) (month x) (day x) = Some x.
Proof.
  unfold strptime.
  destruct (scan_year s) as [[y [|c s1]]|]; try discriminate.
  destruct (is_dash c); try discriminate.
  destruct (scan_month s1) as [[m s2]|]; try discriminate.
  destruct (scan_day s2) as [[d [|? ?]]|]; try discriminate.
  apply make_date_valid.
Qed.

Lemma merge_well_dated (name : string) (w : world) :
  Forall well_dated (persisted w) ->
  Forall well_dated
    (persisted (after (merge_new_data_with_preprocessed_data name) w)).
Proof.
  intros H. destruct (parquet w) as [old|] eqn:Hpq.
  - destruct (merge_adds name w
                (after (merge_new_data_with_preprocessed_data name) w)
                (fst (merge_new_data_with_preprocessed_data name w)) old)
      as [new [added [Hnew [Hperm [_ Hadded]]]]]; auto.
    { unfold after. now destruct (merge_new_data_with_preprocessed_data name w). }
    unfold persisted in *. rewrite Hnew. rewrite Hpq in H.
    rewrite Forall_forall in *. intros r Hr.
    apply (Permutation_in _ Hperm), in_app_or in Hr.
    destruct Hr as [Hr|Hr]; auto.
    destruct (Hadded r Hr) as [_ [d [Hd [Hfile _]]]].
    exists d. split; auto.
    unfold file_dates in Hfile. destruct (raw w name) as [df|]; [|contradiction].
    apply in_map_iff in Hfile. destruct Hfile as [col [E _]].
    eapply strptime_valid; eauto.
  - now rewrite merge_keeps_store.
Qed.

(** X16 - only days of the calendar are stored.  When every record of the
    persisted table has a date that is not null and is a day of the
    calendar (1 <= year <= 9999, a month from 1 to 12, a day the month
    has), the same holds after any sequence of merges: a merge stores no
    null date and no impossible one such as 2023-02-29. *)
Theorem dates_stay_valid (names : list string) (w : world) :
  Forall well_dated (persisted w) ->
  Forall well_dated (persisted (merges names w)).
Proof.
  revert w. induction names as [|name names IH]; intros w H.
  - exact H.
  - cbn [merges]. apply IH. now apply merge_well_dated.
Qed.

(** ** Running a batch again *)

Lemma covered_short_circuit (name : string) (w : world) :
  covered w name ->
  merge_new_data_with_preprocessed_data name w
  = (Ok tt, printed all_overlapping_msg w).
Proof.
  intros [df [old [dates [Hraw [Hreq [Hpq [Hd Hall]]]]]]].
  eapply merge_short_circuit; eauto. now apply not_overlapping_nil.
Qed.

(** Dates are never removed, so a covered file stays covered. *)
Lemma covered_after (name other : string) (w : world) :
  covered w name ->
  covered (after (merge_new_data_with_preprocessed_data other) w) name.
Proof.
  intros [df [old [dates [Hraw [Hreq [Hpq [Hd Hall]]]]]]].
  destruct (merge_adds other w
              (after (merge_new_data_with_preprocessed_data other) w)
              (fst (merge_new_data_with_preprocessed_data other w)) old)
    as [new [added [Hnew [Hperm _]]]]; auto.
  { unfold after. now destruct (merge_new_data_with_preprocessed_data other w). }
  exists df, new, dates. rewrite merge_raw. repeat split; auto.
  intros d Hin.
  apply (Permutation_in _ (Permutation_sym (Permutation_map Long.ds Hperm))).
  rewrite map_app. apply in_or_app. left. now apply Hall.
Qed.

(** A merge of a snapshot with a row, whose cells all cast, covers its
    file. *)
Lemma merge_covers (name : string) (w : world) (df : Wide.frame)
    (casted : Long.frame) :
  reads_like_strptime polars_date ->
  raw w name = Some df ->
  readable df = true ->
  reshaped df = Ok casted ->
  Wide.rows df <> [] ->
  parquet w <> None ->
  covered (after (merge_new_data_with_preprocessed_data name) w) name.
Proof.
  intros Hag Hraw Hr Hp Hrows Hpq. apply readable_true in Hr.
  destruct Hr as [Hreq [dates Hd]].
  destruct (parquet w) as [old|] eqn:Eo; [|congruence].
  unfold after. rewrite (merge_readable name w df old dates) by assumption.
  destruct (dates_that_are_not_overlapping old dates) as [|d novel] eqn:Hn.
  - exists df, old, dates. simpl. repeat split; auto.
    now apply not_overlapping_nil.
  - rewrite Hp. exists df, (merged_table casted old dates), dates. simpl.
    repeat split; auto.
    intros x Hx. now apply (merged_table_holds_dates df).
Qed.

(** A snapshot with a cell that does not cast never changes the table:
    its merge finds no new date or raises. *)
Lemma stuck_step (name : string) (w : world) (df : Wide.frame) (e : exn) :
  raw w name = Some df ->
  readable df = true ->
  reshaped df = Raise e ->
  parquet (after (merge_new_data_with_preprocessed_data name) w) = parquet w /\
  writes (after (merge_new_data_with_preprocessed_data name) w) = writes w.
Proof.
  intros Hraw Hr Hp. apply readable_true in Hr.
  destruct Hr as [Hreq [dates Hd]].
  destruct (parquet w) as [old|] eqn:Eo.
  - unfold after. rewrite (merge_readable name w df old dates) by assumption.
    rewrite Hp.
    destruct (dates_that_are_not_overlapping old dates); simpl; auto.
  - rewrite merge_keeps_store by assumption. auto.
Qed.

Lemma idle_step (name : string) (w : world) :
  idle w name ->
  parquet (after (merge_new_data_with_preprocessed_data name) w) = parquet w /\
  writes (after (merge_new_data_with_preprocessed_data name) w) = writes w.
Proof.
  intros [C|[df [e [Hraw [Hr Hp]]]]].
  - unfold after. now rewrite (covered_short_circuit name w C).
  - now apply (stuck_step name w df e).
Qed.

Lemma idle_after (name other : string) (w : world) :
  idle w name ->
  idle (after (merge_new_data_with_preprocessed_data other) w) name.
Proof.
  intros [C|[df [e [Hraw [Hr Hp]]]]].
  - left. now apply covered_after.
  - right. exists df, e. rewrite merge_raw. auto.
Qed.

Lemma merge_idles (name : string) (w : world) (df : Wide.frame) :
  reads_like_strptime polars_date ->
  raw w name = Some df ->
  readable df = true ->
  Wide.rows df <> [] ->
  parquet w <> None ->
  idle (after (merge_new_data_with_preprocessed_data name) w) name.
Proof.
  intros Hag Hraw Hr Hrows Hpq.
  destruct (reshaped df) as [casted|e] eqn:Hp.
  - left. now apply (merge_covers name w df casted).
  - right. exists df, e. rewrite merge_raw. auto.
Qed.

Lemma merges_idle (names : list string) (w : world) :
  (forall name, In name names -> idle w name) ->
  parquet (merges names w) = parquet w /\
  writes (merges names w) = writes w.
Proof.
  revert w. induction names as [|name names IH]; intros w H; auto.
  cbn [merges].
  destruct (idle_step name w (H name (or_introl eq_refl))) as [Hp Hw].
  destruct (IH (after (merge_new_data_with_preprocessed_data name) w))
    as [Hp' Hw'].
  { intros n Hn. apply idle_after. apply H. now right. }
  split; congruence.
Qed.

Lemma idle_merges (names : list string) (name : string) (w : world) :
  idle w name -> idle (merges names w) name.
Proof.
  revert w. induction names as [|n names IH]; intros w H; auto.
  cbn [merges]. apply IH. now apply idle_after.
Qed.

Lemma merges_make_idle (names : list string) (w : world) :
  reads_like_strptime polars_date ->
  (forall name, In name names ->
     exists df, raw w name = Some df /\ readable df = true
                /\ Wide.rows df <> []) ->
  parquet w <> None ->
  forall name, In name names -> idle (merges names w) name.
Proof.
  intros Hag. revert w.
  induction names as [|n names IH]; intros w H Hpq name Hin.
  - contradiction.
  - cbn [merges]. destruct Hin as [<-|Hin].
    + apply idle_merges.
      destruct (H n (or_introl eq_refl)) as [df [Hraw [Hr Hrows]]].
      now apply (merge_idles n w df).
    + apply IH; auto.
      * intros x Hx. rewrite merge_raw. apply H. now right.
      * destruct (parquet w) as [old|] eqn:Eo; [|congruence].
        destruct (merge_contribution n w old Hag Eo) as [new [Hnew _]].
        congruence.
Qed.

(** X17 - running a batch again changes nothing.  Take files that can all
    be merged and have at least one row each, and an existing persisted
    table.  After merging them in sequence, merging the same sequence once
    more leaves the persisted table as it is and writes nothing: every
    merge of the second pass is the overlap short-circuit, or raises again
    on a cell that does not cast.  (The date cast of line 65 is taken to
    read a column name that [strptime] reads as the same date.) *)
Theorem rerun_is_no_op (names : list string) (w : world) :
  reads_like_strptime polars_date ->
  (forall name, In name names ->
     exists df, raw w name = Some df /\ readable df = true
                /\ Wide.rows df <> []) ->
  parquet w <> None ->
  parquet (merges names (merges names w)) = parquet (merges names w) /\
  writes (merges names (merges names w)) = writes (merges names w).
Proof.
  intros Hag H Hpq. apply merges_idle. now apply merges_make_idle.
Qed.

End Library.

(** * The examples, run with two casts *)

(** The theorems above hold for every reading of the two casts.  The
    examples below run the methods with [lenient_date], which reads more
    names than [strptime] does, and [digits_float]. *)

Lemma lenient_date_reads : reads_like_strptime lenient_date.
Proof. intros s d H. unfold lenient_date. now rewrite H. Qed.

(** So does [strptime] itself, read as the date cast. *)
Example strptime_reads : reads_like_strptime strptime.
Proof. intros s d H. exact H. Qed.

Example lenient_date_wider :
  strptime " 2024-01-02" = None /\ lenient_date " 2024-01-02" = Some jan2.
Proof. split; reflexivity. Qed.

Example digits_float_reads :
  digits_float "5" = Some f5 /\ digits_float "n/a" = None
  /\ float_of_int 7 = f7.
Proof. repeat split; reflexivity. Qed.


Example f10_is_ten : SFmul 53 1024 f5 (SFdiv 53 1024 f10 f5) = f10
                     /\ SFadd 53 1024 f5 f5 = f10.
Proof. split; reflexivity. Qed.

Example f99_is_ninety_nine :
  SFadd 53 1024 (SFmul 53 1024 f10 f10) (SFdiv 53 1024 f5 f5)
  = SFadd 53 1024 f99 (SFadd 53 1024 (SFdiv 53 1024 f5 f5) (SFdiv 53 1024 f5 f5)).
Proof. reflexivity. Qed.

(** The revised snapshot reports 99.0 for C1/W1/P1 on 2024-01-01; the
    stored 10.0 stays. *)
Lemma first_write_wins_witness :
  parquet revised_world = Some [stored_e1] /\
  In (Some jan1) (map Long.ds [stored_e1]) /\
  exists new added,
    parquet (after (merge_new_data_with_preprocessed_data lenient_date digits_float
          "sales_2.csv") revised_world) = Some new /\
    Permutation new ([stored_e1] ++ added) /\
    (forall r, In r added -> ~ In (Long.ds r) (map Long.ds [stored_e1])) /\
    Permutation (filter (dated jan1) new) (filter (dated jan1) [stored_e1]) /\
    (forall r, Long.ds r = Some jan1 -> (In r new <-> In r [stored_e1])).
Proof.
  split; [reflexivity|]. split; [simpl; auto|].
  apply (first_write_wins lenient_date digits_float
        "sales_2.csv" revised_world [stored_e1] jan1).
  - reflexivity.
  - simpl. auto.
Defined.

(** The same merge, evaluated: the value on 2024-01-01 is still 10.0. *)
Example first_write_wins_run :
  map (fun r => (Long.unique_id r, Long.ds r, Long.y r))
      (persisted
          (after (merge_new_data_with_preprocessed_data lenient_date digits_float
                 "sales_2.csv") revised_world))
  = [(Some "C1/W1/P1", Some jan1, Some f10);
     (Some "C1/W1/P1", Some jan2, Some f7);
     (Some "C2/W1/P1", Some jan2, Some f5)].
Proof. reflexivity. Qed.

(** C2/W1/P1 has no stored record for 2024-01-01, the revised snapshot
    reports one, and the date is stored for C1/W1/P1. *)
Lemma global_date_horizon_witness :
  parquet revised_world = Some [stored_e1] /\
  In (Some jan1) (map Long.ds [stored_e1]) /\
  In (long_row (wide_row "C2" "W1" "P1" [("2024-01-01", f5); ("2024-01-02", f5)])
               "2024-01-01" (Some jan1))
     (melted lenient_date revised) /\
  exists new added,
    parquet (after (merge_new_data_with_preprocessed_data lenient_date digits_float
          "sales_2.csv") revised_world) = Some new /\
    Permutation new ([stored_e1] ++ added) /\
    (forall r, In r added -> Long.ds r <> Some jan1) /\
    (forall E,
        (forall r, In r [stored_e1] -> Long.ds r = Some jan1 ->
                   Long.unique_id r <> E) ->
        forall r, In r new -> Long.ds r = Some jan1 -> Long.unique_id r <> E).
Proof.
  split; [reflexivity|]. split; [simpl; auto|].
  split; [simpl; auto|].
  apply (global_date_horizon lenient_date digits_float "sales_2.csv"
           revised_world [stored_e1] jan1).
  - reflexivity.
  - simpl. auto.
Defined.

Lemma sorted_after_write_witness :
  writes (after (merge_new_data_with_preprocessed_data lenient_date digits_float
        "sales_3.csv") unordered_world)
    <> writes unordered_world /\
  exists df old dates processed new,
    raw unordered_world "sales_3.csv" = Some df /\
    parquet unordered_world = Some old /\
    traverse parse_column (dates_from_new_file df) = Ok dates /\
    new_df_processed lenient_date digits_float df
      (dates_that_are_not_overlapping old dates) = Ok processed /\
    parquet (after (merge_new_data_with_preprocessed_data lenient_date digits_float
          "sales_3.csv") unordered_world) = Some new /\
    new = sort (old ++ processed) /\
    Permutation new (old ++ processed) /\
    Sorted key_le new /\ StronglySorted key_le new.
Proof.
  split; [simpl; lia|].
  apply (sorted_after_write lenient_date digits_float "sales_3.csv"
           unordered_world).
  simpl. lia.
Defined.

Example sorted_after_write_run :
  map (fun r => (Long.unique_id r, Long.ds r))
      (persisted
          (after (merge_new_data_with_preprocessed_data lenient_date digits_float
                 "sales_3.csv") unordered_world))
  = [(Some "C1/W1/P1", Some (mkDate 2023 12 31));
     (Some "C1/W1/P1", Some jan1); (Some "C1/W1/P1", Some jan2);
     (Some "C2/W1/P1", Some (mkDate 2023 12 31));
     (Some "C2/W1/P1", Some jan1); (Some "C2/W1/P1", Some jan2)].
Proof. reflexivity. Qed.

Lemma no_op_short_circuit_witness :
  raw overlap_world "sales_4.csv" = Some overlap_snapshot /\
  parquet overlap_world = Some overlap_stored /\
  traverse parse_column (dates_from_new_file overlap_snapshot) = Ok [jan1] /\
  merge_new_data_with_preprocessed_data lenient_date digits_float
        "sales_4.csv" overlap_world
    = (Ok tt, printed all_overlapping_msg overlap_world) /\
  parquet (after (merge_new_data_with_preprocessed_data lenient_date digits_float
        "sales_4.csv")
                 overlap_world) = parquet overlap_world.
Proof.
  split; [reflexivity|]. split; [reflexivity|]. split; [reflexivity|].
  destruct (no_op_short_circuit lenient_date digits_float "sales_4.csv"
              overlap_world overlap_snapshot
              overlap_stored [jan1]) as [_ [_ H]].
  destruct H as [H1 [H2 _]].
  - reflexivity.
  - simpl. intros c [<-|[<-|[<-|[]]]]; simpl; auto.
  - reflexivity.
  - reflexivity.
  - simpl. intros d [[<-|[]] Hn]. apply Hn. now left.
  - split; [exact H1 | exact H2].
Defined.

Lemma schema_error_atomic_witness :
  raw region_world "sales_5.csv" = Some region_snapshot /\
  In "Region" (Wide.columns region_snapshot) /\
  ~ In "Region" original_cat_cols /\
  strptime "Region" = None /\
  exists e,
    merge_new_data_with_preprocessed_data lenient_date digits_float
          "sales_5.csv" region_world
      = (Raise e, region_world) /\
    ((forall c, In c original_cat_cols -> In c (Wide.columns region_snapshot)) ->
     parquet region_world <> None ->
     exists bad,
       e = ValueError bad /\ In bad (Wide.columns region_snapshot) /\
       ~ In bad original_cat_cols /\ strptime bad = None).
Proof.
  assert (Hn : ~ In "Region" original_cat_cols).
  { simpl. intros [H|[H|[H|[]]]]; discriminate. }
  split; [reflexivity|]. split; [simpl; tauto|]. split; [exact Hn|].
  split; [reflexivity|].
  apply (schema_error_atomic lenient_date digits_float "sales_5.csv"
           region_world region_snapshot "Region").
  - reflexivity.
  - simpl. tauto.
  - exact Hn.
  - reflexivity.
Defined.

Example schema_error_run :
  merge_new_data_with_preprocessed_data lenient_date digits_float
        "sales_5.csv" region_world
  = (Raise (ValueError "Region"), region_world).
Proof. reflexivity. Qed.

Lemma uniqueness_preserved_witness :
  reads_like_strptime lenient_date /\
  (forall name df, raw revised_world name = Some df ->
                   one_row_per_key df /\ distinct_dates df) /\
  unique_keys (persisted revised_world) /\
  unique_keys (persisted (merges lenient_date digits_float
        ["sales_2.csv"; "sales_2.csv"; "absent.csv"]
                                 revised_world)).
Proof.
  assert (H : forall name df, raw revised_world name = Some df ->
                              one_row_per_key df /\ distinct_dates df).
  { intros name df. unfold revised_world, world_of. cbn [raw files].
    destruct (String.eqb "sales_2.csv" name).
    - intros E. injection E as <-. split.
      + unfold one_row_per_key. simpl. repeat constructor; simpl.
        * intros [E|[]]. discriminate.
        * tauto.
      + unfold distinct_dates. simpl. repeat constructor; simpl.
        * intros [E|[]]. discriminate.
        * tauto.
    - discriminate. }
  assert (U : unique_keys (persisted revised_world)).
  { unfold unique_keys. simpl. repeat constructor. simpl. tauto. }
  split; [exact lenient_date_reads|]. split; [exact H|]. split; [exact U|].
  apply (uniqueness_preserved lenient_date digits_float _ revised_world
           lenient_date_reads H U).
Defined.

(** The claim as stated fails: one row per (A, B, C) triple does not keep
    the (entity_key, date) pairs apart. *)
Lemma uniqueness_counterexample :
  one_row_per_triple collide_snapshot /\
  unique_keys (persisted collide_world) /\
  map key (persisted (merges lenient_date digits_float ["sales_6.csv"] collide_world))
    = [(Some "a/b/c/d", Some jan1); (Some "a/b/c/d", Some jan1)] /\
  ~ unique_keys (persisted (merges lenient_date digits_float
        ["sales_6.csv"] collide_world)).
Proof.
  split; [|split; [|split]].
  - unfold one_row_per_triple. simpl. repeat constructor; simpl.
    + intros [E|[]]. discriminate.
    + tauto.
  - constructor.
  - reflexivity.
  - unfold unique_keys.
    change (map key (persisted (merges lenient_date digits_float
          ["sales_6.csv"] collide_world)))
      with [(Some "a/b/c/d", Some jan1); (Some "a/b/c/d", Some jan1)].
    intros H. inversion H as [|? ? Hn _]. apply Hn. now left.
Qed.

Lemma second_merge_is_no_op_witness :
  reads_like_strptime lenient_date /\
  raw revised_world "sales_2.csv" = Some revised /\
  Wide.rows revised <> [] /\
  fst (merge_new_data_with_preprocessed_data lenient_date digits_float
        "sales_2.csv" revised_world) = Ok tt /\
  let w1 := after (merge_new_data_with_preprocessed_data lenient_date digits_float
        "sales_2.csv") revised_world in
  merge_new_data_with_preprocessed_data lenient_date digits_float "sales_2.csv" w1
    = (Ok tt, printed all_overlapping_msg w1) /\
  parquet (after (merge_new_data_with_preprocessed_data lenient_date digits_float
        "sales_2.csv") w1) = parquet w1 /\
  writes (after (merge_new_data_with_preprocessed_data lenient_date digits_float
        "sales_2.csv") w1) = writes w1.
Proof.
  split; [exact lenient_date_reads|].
  split; [reflexivity|]. split; [discriminate|]. split; [reflexivity|].
  apply (second_merge_is_no_op lenient_date digits_float "sales_2.csv"
           revised_world revised).
  - exact lenient_date_reads.
  - reflexivity.
  - discriminate.
  - reflexivity.
Defined.

(** The claim as stated fails on a snapshot without rows: the first merge
    returns after a write that adds no record, so 2024-01-02 is still
    absent from the table and the second merge is no short-circuit: it
    writes again and prints the success notice. *)
Lemma idempotence_counterexample :
  let w1 := after (merge_new_data_with_preprocessed_data lenient_date digits_float
        "sales_7.csv") header_only_world in
  let w2 := after (merge_new_data_with_preprocessed_data lenient_date digits_float
        "sales_7.csv") w1 in
  fst (merge_new_data_with_preprocessed_data lenient_date digits_float
        "sales_7.csv" header_only_world) = Ok tt /\
  writes w1 = 1 /\
  merge_new_data_with_preprocessed_data lenient_date digits_float "sales_7.csv" w1
    <> (Ok tt, printed all_overlapping_msg w1) /\
  writes w2 = 2 /\
  stdout w2 = [merged_msg "sales_7.csv"; merged_msg "sales_7.csv"].
Proof.
  cbv zeta. split; [reflexivity|]. split; [reflexivity|].
  split; [|split; reflexivity].
  intros H. apply (f_equal (fun p => writes (snd p))) in H.
  vm_compute in H. discriminate.
Qed.

Lemma date_set_growth_witness :
  reads_like_strptime lenient_date /\
  parquet revised_world = Some [stored_e1] /\
  exists new,
    parquet (after (merge_new_data_with_preprocessed_data lenient_date digits_float
          "sales_2.csv") revised_world) = Some new /\
    incl (map Long.ds [stored_e1]) (map Long.ds new) /\
    (writes (after (merge_new_data_with_preprocessed_data lenient_date digits_float
          "sales_2.csv")
                   revised_world) <> writes revised_world ->
     forall df, raw revised_world "sales_2.csv" = Some df ->
       Wide.rows df <> [] ->
       forall od,
         In od (map Long.ds new) <->
         In od (map Long.ds [stored_e1])
         \/ In od (map strptime (dates_from_new_file df))).
Proof.
  split; [exact lenient_date_reads|]. split; [reflexivity|].
  apply (date_set_growth lenient_date digits_float "sales_2.csv" revised_world
           [stored_e1]).
  - exact lenient_date_reads.
  - reflexivity.
Defined.

(** The claim as stated fails on a snapshot without rows: the merge writes,
    the snapshot's date column is read as 2024-01-02, and the table after
    the write holds no record of that date. *)
Lemma date_set_counterexample :
  let w1 := after (merge_new_data_with_preprocessed_data lenient_date digits_float
        "sales_7.csv") header_only_world in
  writes w1 <> writes header_only_world /\
  In (Some jan2) (map strptime (dates_from_new_file header_only)) /\
  ~ In (Some jan2) (map Long.ds (persisted w1)).
Proof.
  cbv zeta. split; [simpl; lia|]. split; [simpl; auto|].
  simpl. intros [H|[]]. discriminate.
Qed.

Lemma failure_aborts_run_witness :
  let w1 := after (for_each ["sales_a.csv"] (visit lenient_date digits_float
        "sales")) batch_world in
  listdir batch_world = ["sales_a.csv"] ++ "sales_b.csv" :: ["sales_c.csv"] /\
  process_files lenient_date digits_float "sales" batch_world
    = (Raise (ValueError "Region"), printed "sales_b.csv" w1) /\
  map Long.ds (persisted (printed "sales_b.csv" w1)) = [Some jan1; Some jan2].
Proof.
  cbv zeta. split; [reflexivity|]. split; [|reflexivity].
  apply (failure_aborts_run lenient_date digits_float "sales" batch_world _
           ["sales_a.csv"] ["sales_c.csv"] "sales_b.csv").
  - reflexivity.
  - reflexivity.
  - reflexivity.
  - reflexivity.
Defined.

(** The claim as stated fails: the third file is a good one - merged on
    its own after the failure it adds 2024-01-04 - yet the run raises at
    the second file and the third is never printed nor merged. *)
Lemma isolation_counterexample :
  let w' := after (process_files lenient_date digits_float "sales") batch_world in
  fst (process_files lenient_date digits_float
        "sales" batch_world) = Raise (ValueError "Region") /\
  stdout w' = ["sales_a.csv"; merged_msg "sales_a.csv"; "sales_b.csv"] /\
  map Long.ds (persisted w') = [Some jan1; Some jan2] /\
  fst (merge_new_data_with_preprocessed_data lenient_date digits_float
        "sales_c.csv" w') = Ok tt /\
  map Long.ds
      (persisted
          (after (merge_new_data_with_preprocessed_data lenient_date digits_float
                 "sales_c.csv") w'))
    = [Some jan1; Some jan2; Some (mkDate 2024 1 4)].
Proof.
  cbv zeta. repeat split; reflexivity.
Qed.

Lemma reshaper_output_witness :
  reads_like_strptime lenient_date /\
  (forall c, In c original_cat_cols -> In c (Wide.columns revised)) /\
  (forall c, In c (dates_from_new_file revised) -> strptime c <> None) /\
  exists long,
    prepare_raw_csv lenient_date revised = Ok long /\
    List.length long
      = List.length (Wide.rows revised)
        * List.length (dates_from_new_file revised) /\
    (forall r col, In r (Wide.rows revised) ->
                   In col (dates_from_new_file revised) ->
                   In (long_row r col (strptime col)) long) /\
    (forall x, In x long -> Long.ds x <> None) /\
    (forall x, In x long ->
       (Long.unique_id x = None <->
        Long.Client x = None \/ Long.Warehouse x = None \/ Long.Product x = None)).
Proof.
  assert (H1 : forall c, In c original_cat_cols -> In c (Wide.columns revised)).
  { simpl. intros c [<-|[<-|[<-|[]]]]; auto. }
  assert (H2 : forall c, In c (dates_from_new_file revised) -> strptime c <> None).
  { simpl. intros c [<-|[<-|[]]]; discriminate. }
  split; [exact lenient_date_reads|]. split; [exact H1|]. split; [exact H2|].
  apply (reshaper_output lenient_date revised lenient_date_reads H1 H2).
Defined.

Example reshaper_output_run :
  result_bind (prepare_raw_csv lenient_date revised) (fun long =>
    Ok (map (fun r => (Long.unique_id r, Long.ds r, Long.y r)) long))
  = Ok [(Some "C1/W1/P1", Some jan1, Float f99);
        (Some "C1/W1/P1", Some jan2, Float f7);
        (Some "C2/W1/P1", Some jan1, Float f5);
        (Some "C2/W1/P1", Some jan2, Float f5)].
Proof. reflexivity. Qed.

(** The claim as stated fails: the table has the three identifier columns
    and one date column, and the reshaper returns a row whose entity key is
    null. *)
Lemma reshaper_counterexample :
  (forall c, In c original_cat_cols -> In c (Wide.columns null_client)) /\
  (forall c, In c (dates_from_new_file null_client) -> strptime c <> None) /\
  exists x rest,
    prepare_raw_csv lenient_date
          null_client = Ok (x :: rest) /\ Long.unique_id x = None.
Proof.
  split; [|split].
  - simpl. intros c [<-|[<-|[<-|[]]]]; auto.
  - simpl. intros c [<-|[]]. discriminate.
  - eexists. eexists. split; reflexivity.
Qed.

Lemma first_bad_column_reported_witness :
  dates_from_new_file region_snapshot
    = ["2024-01-02"] ++ "Region" :: ["2024-01-03"] /\
  merge_new_data_with_preprocessed_data lenient_date digits_float
        "sales_5.csv" region_world
    = (Raise (ValueError "Region"), region_world).
Proof.
  split; [reflexivity|].
  apply (first_bad_column_reported lenient_date digits_float "sales_5.csv"
           region_world region_snapshot ["2024-01-02"] ["2024-01-03"] "Region").
  - reflexivity.
  - simpl. intros c [<-|[<-|[<-|[]]]]; simpl; auto.
  - discriminate.
  - reflexivity.
  - simpl. intros c [<-|[]]. discriminate.
  - reflexivity.
Defined.

Lemma merge_accounting_witness :
  fst (merge_new_data_with_preprocessed_data lenient_date digits_float
        "sales_2.csv" revised_world) = Ok tt /\
  let w' := after (merge_new_data_with_preprocessed_data lenient_date digits_float
        "sales_2.csv") revised_world in
  (writes w' = writes revised_world /\ parquet w' = parquet revised_world
   /\ stdout w' = stdout revised_world ++ [all_overlapping_msg])
  \/ (writes w' = S (writes revised_world)
      /\ stdout w' = stdout revised_world ++ [merged_msg "sales_2.csv"]).
Proof.
  split; [reflexivity|].
  apply (merge_accounting lenient_date digits_float "sales_2.csv" revised_world).
  reflexivity.
Defined.

(** The snapshot with an integer cell and the text of a number: both
    cast, the merge returns and adds two records. *)
Lemma merge_row_count_witness :
  reads_like_strptime lenient_date /\
  raw cells_world "sales_9.csv" = Some int_cell /\
  parquet cells_world = Some [stored_e1] /\
  fst (merge_new_data_with_preprocessed_data lenient_date digits_float
        "sales_9.csv" cells_world) = Ok tt /\
  novel_columns int_cell [stored_e1] = ["2024-01-02"] /\
  List.length (persisted
      (after (merge_new_data_with_preprocessed_data lenient_date digits_float
             "sales_9.csv") cells_world))
  = List.length [stored_e1]
    + List.length (Wide.rows int_cell)
      * List.length (novel_columns int_cell [stored_e1]).
Proof.
  split; [exact lenient_date_reads|].
  split; [reflexivity|]. split; [reflexivity|]. split; [reflexivity|].
  split; [reflexivity|].
  apply (merge_row_count lenient_date digits_float "sales_9.csv" cells_world
           int_cell [stored_e1]).
  - exact lenient_date_reads.
  - reflexivity.
  - reflexivity.
  - reflexivity.
Defined.

Lemma sorted_invariant_witness :
  Sorted key_le (persisted batch_world) /\
  Sorted key_le
    (persisted
       (merges lenient_date digits_float
             ["sales_c.csv"; "sales_b.csv"; "sales_a.csv"; "nope.csv"]
                   batch_world)).
Proof.
  assert (H : Sorted key_le (persisted batch_world)).
  { repeat constructor. }
  split; [exact H|].
  apply (sorted_invariant lenient_date digits_float _ batch_world H).
Defined.

Lemma merges_commute_witness :
  reads_like_strptime lenient_date /\
  (forall d, In (Some d) (file_dates batch_world "sales_a.csv") ->
             ~ In (Some d) (file_dates batch_world "sales_c.csv")) /\
  Permutation
    (persisted (merges lenient_date digits_float
          ["sales_a.csv"; "sales_c.csv"] batch_world))
    (persisted (merges lenient_date digits_float
          ["sales_c.csv"; "sales_a.csv"] batch_world)) /\
  (Sorted key_le (persisted batch_world) ->
   unique_keys
     (persisted (merges lenient_date digits_float
           ["sales_a.csv"; "sales_c.csv"] batch_world)) ->
   persisted (merges lenient_date digits_float
         ["sales_a.csv"; "sales_c.csv"] batch_world)
   = persisted (merges lenient_date digits_float
         ["sales_c.csv"; "sales_a.csv"] batch_world)).
Proof.
  assert (H : forall d, In (Some d) (file_dates batch_world "sales_a.csv") ->
                        ~ In (Some d) (file_dates batch_world "sales_c.csv")).
  { simpl. intros d [E|[]] [E'|[]]. rewrite <- E in E'. discriminate. }
  split; [exact lenient_date_reads|]. split; [exact H|].
  apply (merges_commute lenient_date digits_float "sales_a.csv" "sales_c.csv"
           batch_world lenient_date_reads H).
Defined.

Lemma process_files_returns_witness :
  fst (process_files lenient_date digits_float "sales" revised_world)
    = Ok (persisted (merges lenient_date digits_float ["sales_2.csv"] revised_world)) /\
  parquet (after (process_files lenient_date digits_float "sales") revised_world)
    = Some (persisted (merges lenient_date digits_float
          ["sales_2.csv"] revised_world)) /\
  parquet (merges lenient_date digits_float
        (filter (selected "sales") (listdir revised_world))
                      revised_world)
    = Some (persisted (merges lenient_date digits_float ["sales_2.csv"] revised_world)).
Proof.
  split; [reflexivity|].
  apply (process_files_returns lenient_date digits_float "sales" revised_world).
  reflexivity.
Defined.

Lemma process_files_nothing_selected_witness :
  (forall file, In file (listdir batch_world) -> selected "stock" file = false) /\
  process_files lenient_date digits_float
        "stock" batch_world = (Ok [stored_e1], batch_world).
Proof.
  assert (H : forall file, In file (listdir batch_world) ->
                           selected "stock" file = false).
  { simpl. intros file [<-|[<-|[<-|[]]]]; reflexivity. }
  split; [exact H|].
  apply (process_files_nothing_selected lenient_date digits_float "stock"
           batch_world H).
Defined.


Lemma reshaper_no_rows_witness :
  (forall c, In c original_cat_cols
             -> In c (Wide.columns (Wide.mkFrame (header ["Region"]) []))) /\
  prepare_raw_csv lenient_date (Wide.mkFrame (header ["Region"]) []) = Ok [].
Proof.
  assert (H : forall c, In c original_cat_cols
                        -> In c (Wide.columns (Wide.mkFrame (header ["Region"]) []))).
  { simpl. intros c [<-|[<-|[<-|[]]]]; auto. }
  split; [exact H|].
  apply (reshaper_no_rows lenient_date (Wide.mkFrame (header ["Region"]) []) H).
  reflexivity.
Defined.

Lemma reshaper_rejects_column_witness :
  Wide.rows region_snapshot <> [] /\
  In "Region" (value_columns region_snapshot) /\
  lenient_date "Region" = None /\
  exists v,
    prepare_raw_csv lenient_date region_snapshot = Raise (InvalidOperationError v) /\
    In v (value_columns region_snapshot) /\ lenient_date v = None.
Proof.
  split; [discriminate|]. split; [simpl; tauto|]. split; [reflexivity|].
  apply (reshaper_rejects_column lenient_date region_snapshot "Region").
  - simpl. intros c [<-|[<-|[<-|[]]]]; simpl; auto.
  - discriminate.
  - simpl. tauto.
  - reflexivity.
Defined.

Lemma key_identifies_triple_witness :
  (forall r, In r (Wide.rows revised) -> plain_identifiers r) /\
  (forall r1 r2, In r1 (Wide.rows revised) -> In r2 (Wide.rows revised) ->
                 unique_id_of r1 = unique_id_of r2 -> triple r1 = triple r2) /\
  (one_row_per_triple revised -> one_row_per_key revised).
Proof.
  assert (H : forall r, In r (Wide.rows revised) -> plain_identifiers r).
  { simpl. intros r [<-|[<-|[]]].
    - exists "C1", "W1", "P1". repeat split; reflexivity.
    - exists "C2", "W1", "P1". repeat split; reflexivity. }
  split; [exact H|].
  apply (key_identifies_triple revised H).
Defined.

(** The first merge into an empty table of the snapshot with an integer
    cell and the text of a number: the table holds them as floats. *)
Lemma merge_into_empty_witness :
  let w := world_of [("sales_9.csv", int_cell)] [] in
  reads_like_strptime lenient_date /\
  raw w "sales_9.csv" = Some int_cell /\
  parquet w = Some [] /\
  fst (merge_new_data_with_preprocessed_data lenient_date digits_float
        "sales_9.csv" w) = Ok tt /\
  map (fun r => (Long.unique_id r, Long.ds r, Long.y r))
      (persisted
          (after (merge_new_data_with_preprocessed_data lenient_date digits_float
                 "sales_9.csv") w))
    = [(Some "C1/W1/P1", Some jan2, Some f7);
       (Some "C2/W1/P1", Some jan2, Some f5)] /\
  let table := persisted
      (after (merge_new_data_with_preprocessed_data lenient_date digits_float
             "sales_9.csv") w) in
  exists long casted,
    prepare_raw_csv lenient_date int_cell = Ok long /\
    traverse (cast_y digits_float) long = Ok casted /\
    Permutation table casted /\ Sorted key_le table /\
    (unique_keys casted -> table = casted).
Proof.
  cbv zeta. split; [exact lenient_date_reads|].
  split; [reflexivity|]. split; [reflexivity|]. split; [reflexivity|].
  split; [reflexivity|].
  apply (merge_into_empty lenient_date digits_float "sales_9.csv"
           (world_of [("sales_9.csv", int_cell)] []) int_cell).
  - exact lenient_date_reads.
  - reflexivity.
  - reflexivity.
  - reflexivity.
Defined.

Lemma dates_stay_valid_witness :
  Forall well_dated (persisted batch_world) /\
  Forall well_dated
    (persisted
       (merges lenient_date digits_float
             ["sales_a.csv"; "sales_b.csv"; "sales_c.csv"] batch_world)).
Proof.
  assert (H : Forall well_dated (persisted batch_world)).
  { repeat constructor. exists jan1. split; reflexivity. }
  split; [exact H|].
  apply (dates_stay_valid lenient_date digits_float _ batch_world H).
Defined.

(** The file with the text cell n/a raises in the first pass and leaves
    the table alone; the file after it stores the date, so in the second
    pass both find their dates covered. *)
Lemma rerun_is_no_op_witness :
  let names := ["sales_8.csv"; "sales_9.csv"] in
  reads_like_strptime lenient_date /\
  parquet cells_world <> None /\
  writes (merges lenient_date digits_float names cells_world) = 1 /\
  parquet (merges lenient_date digits_float names (merges lenient_date digits_float
        names cells_world))
    = parquet (merges lenient_date digits_float names cells_world) /\
  writes (merges lenient_date digits_float names (merges lenient_date digits_float
        names cells_world))
    = writes (merges lenient_date digits_float names cells_world).
Proof.
  cbv zeta. split; [exact lenient_date_reads|]. split; [discriminate|].
  split; [reflexivity|].
  apply (rerun_is_no_op lenient_date digits_float
           ["sales_8.csv"; "sales_9.csv"] cells_world).
  - exact lenient_date_reads.
  - intros name [<-|[<-|[]]]; eexists; repeat split; discriminate.
  - discriminate.
Defined.

(** The snapshot with the text cell n/a brings a new date: the cast of
    line 109 raises and nothing is written.  Merged into a table that
    already holds its date, the same snapshot is not cast at all. *)
Example text_cell_run :
  merge_new_data_with_preprocessed_data lenient_date digits_float
        "sales_8.csv" cells_world
    = (Raise (InvalidOperationError "n/a"), cells_world) /\
  fst (merge_new_data_with_preprocessed_data lenient_date digits_float
        "sales_8.csv"
            (after (merge_new_data_with_preprocessed_data lenient_date digits_float
                   "sales_9.csv") cells_world))
    = Ok tt.
Proof. split; reflexivity. Qed.

(** In a merge the same column name is refused by line 95, whatever the
    date cast of line 65 would read. *)
Example spaced_column_run :
  merge_new_data_with_preprocessed_data lenient_date digits_float
        "sales.csv" (world_of [("sales.csv", spaced)] [])
  = (Raise (ValueError " 2024-01-02"), world_of [("sales.csv", spaced)] []).
Proof. reflexivity. Qed.

(** The two sides of the equivalence on the snapshot with the text cell
    n/a: it brings the new date 2024-01-02 and the cell of C2/W1/P1 does
    not cast, so the merge raises. *)
Lemma merge_returns_iff_witness :
  reads_like_strptime lenient_date /\
  (forall df, raw cells_world "sales_8.csv" = Some df -> ascii_names df) /\
  fst (merge_new_data_with_preprocessed_data lenient_date digits_float
        "sales_8.csv" cells_world)
    = Raise (InvalidOperationError "n/a") /\
  cast_value digits_float (Text "n/a") = Raise (InvalidOperationError "n/a") /\
  (fst (merge_new_data_with_preprocessed_data lenient_date digits_float
        "sales_8.csv" cells_world) = Ok tt <->
   exists df old dates,
     raw cells_world "sales_8.csv" = Some df /\
     require_columns original_cat_cols df = Ok tt /\
     parquet cells_world = Some old /\
     traverse parse_column (dates_from_new_file df) = Ok dates /\
     (dates_that_are_not_overlapping old dates <> [] ->
      forall r col, In r (Wide.rows df) -> In col (dates_from_new_file df) ->
                    exists v, cast_value digits_float (Wide.cell r col) = Ok v)).
Proof.
  assert (H : forall df, raw cells_world "sales_8.csv" = Some df
                         -> ascii_names df).
  { intros df E. injection E as <-. intros c Hc. simpl in Hc.
    repeat (destruct Hc as [<-|Hc]; [reflexivity|]). destruct Hc. }
  split; [exact lenient_date_reads|]. split; [exact H|].
  split; [reflexivity|]. split; [reflexivity|].
  apply (merge_returns_iff lenient_date digits_float "sales_8.csv" cells_world).
  - exact lenient_date_reads.
  - exact H.
Defined.
